(** * Scanning stealth-payment announcements: a verification development

    The repository holds a benchmark harness for the scanning path of a
    stealth-payment protocol on secp256k1 (a TypeScript test file) and one
    user-interface component (ConnectWallet.vue).  This file embeds both:
    the harness's [getSharedSecret] and the body of its reducer, and the
    component's click handler, together with the external functions they
    call, and proves the properties claimed of them.

    Layout: the definitions come first (results of fallible calls,
    hexadecimal strings, SHA-256 and Keccak-256, the curve and its group
    operations, the elliptic-curve and ethers helpers, the protocol
    library's utilities and key pairs, the harness, the announcement
    source and the component); the theorems follow. *)

From Stdlib Require Import ZArith Lia List Bool String Ascii Permutation.
From Stdlib.Strings Require Import Byte.
From Stdlib Require Import Zmod Zstar ZmodNsatz NsatzTactic Znumtheory Zpow_facts.
From Bignums Require Import BigZ.BigZ.
Import ListNotations.
Local Open Scope Z_scope.
Local Open Scope list_scope.

(** * Results of fallible calls

    Every function of the TypeScript sources that can [throw] is
    embedded as a function into [result]: [Ok v] for a normal return and
    [Throw e] for an exception.  The [error] type keeps the exceptions of
    the repository's own code ([Error msg], the message of
    [new Error(msg)]) apart from the failures of the protocol library that
    the harness imports but that is not among the sources (named as in
    the specification's taxonomy) and from the exceptions of the external
    libraries. *)

Inductive error : Type :=
| Error (msg : string)
| InvalidPrivateKey
| InvalidPublicKey
| PointNotOnCurve
| PointRecoveryFailed
| InvalidScalar
| MissingPublicKey
| NobleError (msg : string)
| EthersError (msg : string).

Inductive result (A : Type) : Type :=
| Ok (a : A)
| Throw (e : error).
Arguments Ok {A} a.
Arguments Throw {A} e.

Definition bind {A B : Type} (m : result A) (k : A -> result B) : result B :=
  match m with
  | Ok a => k a
  | Throw e => Throw e
  end.

Notation "'let*' x ':=' m 'in' k" := (bind m (fun x => k))
  (at level 10, x name, m at level 100, k at level 200).
Notation "m ';;' k" := (bind m (fun _ => k))
  (at level 100, k at level 200, right associativity).

Definition assert_that (c : bool) (e : error) : result unit :=
  if c then Ok tt else Throw e.

Definition is_ok {A : Type} (r : result A) : bool :=
  match r with Ok _ => true | Throw _ => false end.

(** * Hexadecimal strings and byte arrays *)

Module Hex.

(** Value of one hexadecimal digit, either case. *)
Definition digit_value (c : ascii) : option Z :=
  let n := Z.of_N (N_of_ascii c) in
  if (48 <=? n) && (n <=? 57) then Some (n - 48)
  else if (97 <=? n) && (n <=? 102) then Some (n - 87)
  else if (65 <=? n) && (n <=? 70) then Some (n - 55)
  else None.

Definition is_hex_digit (c : ascii) : bool :=
  match digit_value c with Some _ => true | None => false end.

(** Lower-case digit of a value below sixteen ([toString(16)]). *)
Definition digit_of (d : Z) : ascii :=
  if d <? 10 then ascii_of_N (Z.to_N (d + 48)) else ascii_of_N (Z.to_N (d + 87)).

Fixpoint all_hex (s : string) : bool :=
  match s with
  | EmptyString => true
  | String c r => is_hex_digit c && all_hex r
  end.

(** [s.slice(n)] for [0 <= n]. *)
Fixpoint slice (n : nat) (s : string) : string :=
  match n, s with
  | O, _ => s
  | S k, EmptyString => EmptyString
  | S k, String _ r => slice k r
  end.

Definition starts_with (pre s : string) : bool := String.prefix pre s.

(** Big-endian value of a string of hexadecimal digits; [None] on any
    other character. *)
Fixpoint to_Z_acc (acc : Z) (s : string) : option Z :=
  match s with
  | EmptyString => Some acc
  | String c r =>
    match digit_value c with
    | Some d => to_Z_acc (16 * acc + d) r
    | None => None
    end
  end.

Definition to_Z (s : string) : option Z := to_Z_acc 0 s.

(** The [n] low hexadecimal digits of [z], most significant first
    ([z.toString(16).padStart(n, '0')] when [z < 16^n]). *)
Fixpoint of_Z (n : nat) (z : Z) : string :=
  match n with
  | O => EmptyString
  | S k => (of_Z k (z / 16) ++ String (digit_of (z mod 16)) EmptyString)%string
  end.

(** Number of hexadecimal digits of [z.toString(16)] for [0 <= z]. *)
Definition digits (z : Z) : nat :=
  if z =? 0 then 1%nat else Z.to_nat ((Z.log2 z) / 4 + 1).

Definition byte_of_Z (z : Z) : byte :=
  match Byte.of_N (Z.to_N (z mod 256)) with
  | Some b => b
  | None => x00
  end.

Definition Z_of_byte (b : byte) : Z := Z.of_N (Byte.to_N b).

(** [hexToBytes]: two digits per byte; fails on an odd length or on a
    character that is not a hexadecimal digit. *)
Fixpoint to_bytes (s : string) : option (list byte) :=
  match s with
  | EmptyString => Some []
  | String c1 (String c2 r) =>
    match digit_value c1, digit_value c2, to_bytes r with
    | Some h, Some l, Some bs => Some (byte_of_Z (16 * h + l) :: bs)
    | _, _, _ => None
    end
  | String _ EmptyString => None
  end.

(** [bytesToHex]: two lower-case digits per byte. *)
Fixpoint of_bytes (bs : list byte) : string :=
  match bs with
  | [] => EmptyString
  | b :: r =>
    String (digit_of (Z_of_byte b / 16))
      (String (digit_of (Z_of_byte b mod 16)) (of_bytes r))
  end.

(** The strings [bytesToHex] and [toString(16)] produce: lower-case
    hexadecimal digits only. *)
Inductive lower_hex : string -> Prop :=
| LowerNil : lower_hex EmptyString
| LowerCons (d : Z) (r : string) :
    0 <= d < 16 -> lower_hex r -> lower_hex (String (digit_of d) r).

End Hex.

(** * SHA-256 (FIPS 180-4), the [sha256] that the harness imports

    Words are 32-bit values carried in [Z], reduced after each addition. *)

Module Sha256.

Definition w32 (x : Z) : Z := x mod 2 ^ 32.
Definition rotr (n x : Z) : Z := Z.lor (Z.shiftr x n) (w32 (Z.shiftl x (32 - n))).
Definition xor3 (x y z : Z) : Z := Z.lxor (Z.lxor x y) z.
Definition Ch (x y z : Z) : Z := Z.lxor (Z.land x y) (Z.land (Z.lxor x 0xffffffff) z).
Definition Maj (x y z : Z) : Z := xor3 (Z.land x y) (Z.land x z) (Z.land y z).
Definition bsig0 (x : Z) : Z := xor3 (rotr 2 x) (rotr 13 x) (rotr 22 x).
Definition bsig1 (x : Z) : Z := xor3 (rotr 6 x) (rotr 11 x) (rotr 25 x).
Definition ssig0 (x : Z) : Z := xor3 (rotr 7 x) (rotr 18 x) (Z.shiftr x 3).
Definition ssig1 (x : Z) : Z := xor3 (rotr 17 x) (rotr 19 x) (Z.shiftr x 10).

(** The constants are the standard's: the first 32 bits of the fractional
    parts of the cube roots (round constants) and of the square roots
    (initial hash value) of the first primes. *)
Definition no_divisor (q : Z) : bool :=
  forallb (fun d => negb (q mod d =? 0)) (map Z.of_nat (seq 2 (Z.to_nat q - 2))).

Definition primes : list Z := filter no_divisor (map Z.of_nat (seq 2 310)).

Fixpoint cube_root_bits (k : nat) (m r : Z) : Z :=
  match k with
  | O => r
  | S k' =>
    let c := r + 2 ^ Z.of_nat k' in
    cube_root_bits k' m (if c * c * c <=? m then c else r)
  end.

Definition cube_root (m : Z) : Z := cube_root_bits 40 m 0.

Definition K : list Z :=
  Eval vm_compute in map (fun q => w32 (cube_root (q * 2 ^ 96))) primes.

Definition H0 : list Z :=
  Eval vm_compute in map (fun q => w32 (Z.sqrt (q * 2 ^ 64))) (firstn 8 primes).

(** Big-endian bytes of [z], [n] of them. *)
Fixpoint be_bytes (n : nat) (z : Z) : list Z :=
  match n with
  | O => []
  | S k => be_bytes k (z / 256) ++ [z mod 256]
  end.

Definition pad (msg : list Z) : list Z :=
  let len := Z.of_nat (length msg) in
  msg ++ [0x80] ++ repeat 0 (Z.to_nat ((55 - len) mod 64)) ++ be_bytes 8 (8 * len).

Fixpoint words (bs : list Z) : list Z :=
  match bs with
  | a :: b :: c :: d :: r =>
    (Z.shiftl a 24 + Z.shiftl b 16 + Z.shiftl c 8 + d) :: words r
  | _ => []
  end.

(** Message schedule, most recent word first. *)
Fixpoint schedule (n : nat) (w : list Z) : list Z :=
  match n with
  | O => w
  | S k =>
    schedule k
      (w32 (ssig1 (nth 1 w 0) + nth 6 w 0 + ssig0 (nth 14 w 0) + nth 15 w 0) :: w)
  end.

Definition round (st : list Z) (kw : Z * Z) : list Z :=
  match st with
  | [a; b; c; d; e; f; g; h] =>
    let t1 := w32 (h + bsig1 e + Ch e f g + fst kw + snd kw) in
    let t2 := w32 (bsig0 a + Maj a b c) in
    [w32 (t1 + t2); a; b; c; w32 (d + t1); e; f; g]
  | _ => st
  end.

Definition compress (h : list Z) (block : list Z) : list Z :=
  let w := rev (schedule 48 (rev block)) in
  map (fun p => w32 (fst p + snd p)) (combine h (fold_left round (combine K w) h)).

Fixpoint blocks (n : nat) (ws : list Z) (h : list Z) : list Z :=
  match n with
  | O => h
  | S k =>
    match ws with
    | [] => h
    | _ => blocks k (skipn 16 ws) (compress h (firstn 16 ws))
    end
  end.

Definition digest (msg : list byte) : list byte :=
  let ws := words (pad (map Hex.Z_of_byte msg)) in
  map Hex.byte_of_Z (flat_map (be_bytes 4) (blocks (length ws) ws H0)).

End Sha256.

(** * Keccak-256, the hash behind the address of a public key *)

Module Keccak.

Definition w64 (x : Z) : Z := x mod 2 ^ 64.
Definition rotl (x : Z) (n : Z) : Z :=
  Z.lor (w64 (Z.shiftl x n)) (Z.shiftr x (64 - n)).

Definition RC : list Z :=
  [
    0x1; 0x8082; 0x800000000000808a; 0x8000000080008000;
    0x808b; 0x80000001; 0x8000000080008081; 0x8000000000008009;
    0x8a; 0x88; 0x80008009; 0x8000000a;
    0x8000808b; 0x800000000000008b; 0x8000000000008089; 0x8000000000008003;
    0x8000000000008002; 0x8000000000000080; 0x800a; 0x800000008000000a;
    0x8000000080008081; 0x8000000000008080; 0x80000001; 0x8000000080008008 ].

(** Rotation offsets, lane [(x, y)] at index [x + 5 * y]. *)
Definition offsets : list Z :=
  [0; 1; 62; 28; 27; 36; 44; 6; 55; 20; 3; 10; 43; 25; 39; 41; 45; 15; 21; 8; 18; 2; 61; 56; 14].

Definition lane (a : list Z) (x y : nat) : Z := nth (x mod 5 + 5 * (y mod 5)) a 0.

Definition indices : list nat := seq 0 25.

Definition theta (a : list Z) : list Z :=
  let c := map (fun x => fold_left Z.lxor (map (fun y => lane a x y) (seq 0 5)) 0) (seq 0 5) in
  let d := map (fun x => Z.lxor (nth ((x + 4) mod 5) c 0) (rotl (nth ((x + 1) mod 5) c 0) 1))
               (seq 0 5) in
  map (fun i => Z.lxor (nth i a 0) (nth (i mod 5) d 0)) indices.

Definition rho_pi (a : list Z) : list Z :=
  map (fun j =>
         let X := (j mod 5)%nat in
         let Y := (j / 5)%nat in
         let x := ((X + 3 * Y) mod 5)%nat in
         let y := X in
         rotl (lane a x y) (nth (x + 5 * y) offsets 0))
      indices.

Definition chi (b : list Z) : list Z :=
  map (fun i =>
         let x := (i mod 5)%nat in
         let y := (i / 5)%nat in
         Z.lxor (lane b x y)
                (Z.land (Z.lxor (lane b (x + 1) y) 0xffffffffffffffff) (lane b (x + 2) y)))
      indices.

Definition iota (rc : Z) (a : list Z) : list Z :=
  match a with
  | l0 :: r => Z.lxor l0 rc :: r
  | [] => []
  end.

Definition permute (a : list Z) : list Z :=
  fold_left (fun st rc => iota rc (chi (rho_pi (theta st)))) RC a.

(** Little-endian lanes. *)
Fixpoint le_bytes (n : nat) (z : Z) : list Z :=
  match n with
  | O => []
  | S k => z mod 256 :: le_bytes k (z / 256)
  end.

Fixpoint le_value (bs : list Z) : Z :=
  match bs with
  | [] => 0
  | b :: r => b + 256 * le_value r
  end.

Fixpoint lanes (n : nat) (bs : list Z) : list Z :=
  match n with
  | O => []
  | S k => le_value (firstn 8 bs) :: lanes k (skipn 8 bs)
  end.

Definition rate : nat := 136.

Definition pad (msg : list Z) : list Z :=
  let q := (rate - length msg mod rate)%nat in
  if (q =? 1)%nat then msg ++ [0x81]
  else msg ++ [0x01] ++ repeat 0 (q - 2) ++ [0x80].

Definition absorb_block (st : list Z) (block : list Z) : list Z :=
  let ls := lanes 17 block ++ repeat 0 8 in
  permute (map (fun p => Z.lxor (fst p) (snd p)) (combine st ls)).

Fixpoint absorb (n : nat) (bs : list Z) (st : list Z) : list Z :=
  match n with
  | O => st
  | S k =>
    match bs with
    | [] => st
    | _ => absorb k (skipn rate bs) (absorb_block st (firstn rate bs))
    end
  end.

Definition digest (msg : list byte) : list byte :=
  let bs := pad (map Hex.Z_of_byte msg) in
  let st := absorb (length bs) bs (repeat 0 25) in
  map Hex.byte_of_Z (flat_map (le_bytes 8) (firstn 4 st)).

End Keccak.

(** * Short Weierstrass curves [y^2 = x^3 + b] over [Zmod p]

    The affine group law behind the elliptic-curve library the harness
    imports.  The library computes in Jacobian coordinates; the points it
    returns are the affine points below. *)

Module Curve.

Section Operations.
Variable p : Z.

Inductive point : Type :=
| Inf
| Aff (x y : Zmod p).

Definition on_curve (b : Zmod p) (P : point) : Prop :=
  match P with
  | Inf => True
  | Aff x y => Zmod.mul y y = Zmod.add (Zmod.mul (Zmod.mul x x) x) b
  end.

Definition on_curveb (b : Zmod p) (P : point) : bool :=
  match P with
  | Inf => true
  | Aff x y => Zmod.eqb (Zmod.mul y y) (Zmod.add (Zmod.mul (Zmod.mul x x) x) b)
  end.

Definition eqb (P Q : point) : bool :=
  match P, Q with
  | Inf, Inf => true
  | Aff x1 y1, Aff x2 y2 => Zmod.eqb x1 x2 && Zmod.eqb y1 y2
  | _, _ => false
  end.

Definition neg (P : point) : point :=
  match P with
  | Inf => Inf
  | Aff x y => Aff x (Zmod.opp y)
  end.

Definition add (P Q : point) : point :=
  match P, Q with
  | Inf, _ => Q
  | _, Inf => P
  | Aff x1 y1, Aff x2 y2 =>
    if Zmod.eqb x1 x2 then
      if Zmod.eqb y1 (Zmod.opp y2) then Inf
      else
        let l := Zmod.mul (Zmod.add (Zmod.add (Zmod.mul x1 x1) (Zmod.mul x1 x1)) (Zmod.mul x1 x1))
                          (Zmod.inv (Zmod.add y1 y1)) in
        let x3 := Zmod.sub (Zmod.sub (Zmod.mul l l) x1) x2 in
        Aff x3 (Zmod.sub (Zmod.mul l (Zmod.sub x1 x3)) y1)
    else
      let l := Zmod.mul (Zmod.sub y2 y1) (Zmod.inv (Zmod.sub x2 x1)) in
      let x3 := Zmod.sub (Zmod.sub (Zmod.mul l l) x1) x2 in
      Aff x3 (Zmod.sub (Zmod.mul l (Zmod.sub x1 x3)) y1)
  end.

(** Double-and-add over the binary digits of the scalar. *)
Fixpoint mul_pos (k : positive) (P : point) : point :=
  match k with
  | xH => P
  | xO k' => let Q := mul_pos k' P in add Q Q
  | xI k' => let Q := mul_pos k' P in add P (add Q Q)
  end.

Definition mul (k : Z) (P : point) : point :=
  match k with
  | Zpos q => mul_pos q P
  | _ => Inf
  end.

(** Which branch of [add] a pair of points takes: 0 when one of them is
    the point at infinity, 1 for opposite points, 2 for a doubling and 3
    for a chord. *)
Definition kind (P Q : point) : nat :=
  match P, Q with
  | Aff x1 y1, Aff x2 y2 =>
    if Zmod.eqb x1 x2 then (if Zmod.eqb y1 (Zmod.opp y2) then 1%nat else 2%nat)
    else 3%nat
  | _, _ => 0%nat
  end.

(** The graph of [add], with the slope and its denominator's inverse as
    witnesses, indexed by the branch taken. *)
Inductive add_rel : point -> point -> point -> nat -> Prop :=
| AddInfL (Q : point) : add_rel Inf Q Q 0
| AddInfR (x y : Zmod p) : add_rel (Aff x y) Inf (Aff x y) 0
| AddOpp (x1 y1 x2 y2 : Zmod p) :
    x1 = x2 -> Zmod.add y1 y2 = Zmod.zero ->
    add_rel (Aff x1 y1) (Aff x2 y2) Inf 1
| AddDbl (x1 y1 x2 y2 i l x3 y3 : Zmod p) :
    x1 = x2 -> y1 = y2 ->
    Zmod.mul (Zmod.add y1 y1) i = Zmod.one ->
    l = Zmod.mul (Zmod.add (Zmod.add (Zmod.mul x1 x1) (Zmod.mul x1 x1)) (Zmod.mul x1 x1)) i ->
    x3 = Zmod.sub (Zmod.sub (Zmod.mul l l) x1) x2 ->
    y3 = Zmod.sub (Zmod.mul l (Zmod.sub x1 x3)) y1 ->
    add_rel (Aff x1 y1) (Aff x2 y2) (Aff x3 y3) 2
| AddChord (x1 y1 x2 y2 i l x3 y3 : Zmod p) :
    Zmod.mul (Zmod.sub x2 x1) i = Zmod.one ->
    l = Zmod.mul (Zmod.sub y2 y1) i ->
    x3 = Zmod.sub (Zmod.sub (Zmod.mul l l) x1) x2 ->
    y3 = Zmod.sub (Zmod.mul l (Zmod.sub x1 x3)) y1 ->
    add_rel (Aff x1 y1) (Aff x2 y2) (Aff x3 y3) 3.

End Operations.

Arguments Inf {p}.
Arguments Aff {p} x y.
Arguments on_curve {p} b P.
Arguments on_curveb {p} b P.
Arguments eqb {p} P Q.
Arguments neg {p} P.
Arguments add {p} P Q.
Arguments mul_pos {p} k P.
Arguments mul {p} k P.
Arguments kind {p} P Q.
Arguments add_rel {p} _ _ _ _.

End Curve.

(** * secp256k1 *)

Module Secp256k1.

Definition P : Z := 2 ^ 256 - 2 ^ 32 - 977.
Definition n : Z := 0xFFFFFFFFFFFFFFFFFFFFFFFFFFFFFFFEBAAEDCE6AF48A03BBFD25E8CD0364141.
Definition Gx : Z := 0x79BE667EF9DCBBAC55A06295CE870B07029BFCDB2DCE28D959F2815B16F81798.
Definition Gy : Z := 0x483ADA7726A3C4655DA4FBFC0E1108A8FD17B448A68554199C47D08FFB10D4B8.

Definition F : Type := Zmod P.
Definition fe (z : Z) : F := Zmod.of_Z P z.
Definition b : F := fe 7.
Definition point : Type := Curve.point P.
Definition G : point := Curve.Aff (fe Gx) (fe Gy).

End Secp256k1.

(** * The elliptic-curve library ([@noble/secp256k1])

    The library is not part of the repository; the functions the harness
    imports are modelled from their documented behaviour.  The library
    decodes hexadecimal input through byte arrays; the model reads the
    digits directly, which accepts the same strings. *)

Module Noble.
Import Secp256k1.
Local Open Scope string_scope.
Local Open Scope Z_scope.

Definition isValidFieldElement (x : Z) : bool := (0 <? x) && (x <? P).
Definition isWithinCurveOrder (k : Z) : bool := (0 <? k) && (k <? n).

(** [x^3 + 7] *)
Definition weierstrass (x : F) : F := Zmod.add (Zmod.mul (Zmod.mul x x) x) b.

(** [P = 3 mod 4]: a square root, when there is one, is the power
    [(P + 1) / 4]. *)
Definition sqrtMod (y2 : F) : F := Zmod.pow y2 ((P + 1) / 4).

(** Affine coordinates; the point at infinity is [Point.ZERO = (0, 0)]. *)
Definition px (Q : point) : Z :=
  match Q with Curve.Inf => 0 | Curve.Aff x _ => Zmod.to_Z x end.
Definition py (Q : point) : Z :=
  match Q with Curve.Inf => 0 | Curve.Aff _ y => Zmod.to_Z y end.

Definition hasEvenY (Q : point) : bool := Z.even (py Q).

Definition numTo32bStr (z : Z) : string := Hex.of_Z 64 z.

Definition toHex (Q : point) (isCompressed : bool) : string :=
  if isCompressed
  then (if hasEvenY Q then "02" else "03") ++ numTo32bStr (px Q)
  else "04" ++ numTo32bStr (px Q) ++ numTo32bStr (py Q).

Definition toRawBytes (Q : point) (isCompressed : bool) : list byte :=
  match Hex.to_bytes (toHex Q isCompressed) with
  | Some bs => bs
  | None => []
  end.

Definition bytesToHex (bs : list byte) : string := Hex.of_bytes bs.

Definition not_on_curve : error := NobleError "Point is not on elliptic curve".

Definition assertValidity (x y : Z) : result point :=
  if isValidFieldElement x && isValidFieldElement y
     && Zmod.eqb (Zmod.mul (fe y) (fe y)) (weierstrass (fe x))
  then Ok (Curve.Aff (fe x) (fe y))
  else Throw not_on_curve.

(** [Point.fromHex] for a compressed key: [x] with the parity of [y]
    given by the prefix; a bare [x] stands for the even [y]. *)
Definition fromCompressedHex (oddPrefix : bool) (xhex : string) : result point :=
  match Hex.to_Z xhex with
  | None => Throw (NobleError "Invalid byte sequence")
  | Some x =>
    if isValidFieldElement x then
      let y := sqrtMod (weierstrass (fe x)) in
      let y := if Bool.eqb oddPrefix (Z.odd (Zmod.to_Z y)) then y else Zmod.opp y in
      assertValidity x (Zmod.to_Z y)
    else Throw (NobleError "Point is not on curve")
  end.

Definition fromUncompressedHex (xyhex : string) : result point :=
  match Hex.to_Z (String.substring 0 64 xyhex), Hex.to_Z (String.substring 64 64 xyhex) with
  | Some x, Some y => assertValidity x y
  | _, _ => Throw (NobleError "Invalid byte sequence")
  end.

Definition fromHex (hex : string) : result point :=
  let len := String.length hex in
  if negb (Hex.all_hex hex) || Nat.odd len
  then Throw (NobleError "Invalid byte sequence")
  else if (len =? 64)%nat then fromCompressedHex false hex
  else if (len =? 66)%nat && Hex.starts_with "02" hex
       then fromCompressedHex false (Hex.slice 2 hex)
  else if (len =? 66)%nat && Hex.starts_with "03" hex
       then fromCompressedHex true (Hex.slice 2 hex)
  else if (len =? 130)%nat && Hex.starts_with "04" hex
       then fromUncompressedHex (Hex.slice 2 hex)
  else Throw (NobleError "Point.fromHex: received invalid point").

Definition normalizePrivateKey (key : string) : result Z :=
  if negb (String.length key =? 64)%nat
  then Throw (NobleError "Expected 32 bytes of private key")
  else match Hex.to_Z key with
       | None => Throw (NobleError "Cannot convert to a BigInt")
       | Some k =>
         if isWithinCurveOrder k then Ok k
         else Throw (NobleError "Expected private key: 0 < key < n")
       end.

(** [Point.multiply]: the scalar must lie strictly between 0 and the
    group order. *)
Definition multiply (Q : point) (scalar : Z) : result point :=
  if isWithinCurveOrder scalar then Ok (Curve.mul scalar Q)
  else Throw (NobleError "Expected valid private scalar: 0 < scalar < curve.n").

Definition isPub (item : string) : bool :=
  let len := String.length item in (len =? 66)%nat || (len =? 130)%nat.

Definition getSharedSecret (privateA publicB : string) (isCompressed : bool)
  : result (list byte) :=
  if isPub privateA
  then Throw (NobleError "getSharedSecret: first arg must be private key")
  else if negb (isPub publicB)
  then Throw (NobleError "getSharedSecret: second arg must be public key")
  else
    let* B := fromHex publicB in
    let* a := normalizePrivateKey privateA in
    let* S := multiply B a in
    Ok (toRawBytes S isCompressed).

Definition getPublicKey (privateKey : string) (isCompressed : bool)
  : result (list byte) :=
  let* k := normalizePrivateKey privateKey in
  let* Q := multiply G k in
  Ok (toRawBytes Q isCompressed).

End Noble.

(** * The [ethers] helpers the harness imports *)

Module Ethers.
Local Open Scope string_scope.
Local Open Scope Z_scope.

(** [isHexString(value)]: [/^0x[0-9A-Fa-f]*$/]. *)
Definition isHexString (value : string) : bool :=
  Hex.starts_with "0x" value && Hex.all_hex (Hex.slice 2 value).

(** [arrayify] of a hexadecimal string: an even number of digits. *)
Definition arrayify (data : string) : result (list byte) :=
  if isHexString data then
    match Hex.to_bytes (Hex.slice 2 data) with
    | Some bs => Ok bs
    | None => Throw (EthersError "hex data is odd-length")
    end
  else Throw (EthersError "invalid arrayify value").

Definition hexlify (bs : list byte) : string := "0x" ++ Hex.of_bytes bs.

Definition sha256 (data : string) : result string :=
  let* bs := arrayify data in Ok (hexlify (Sha256.digest bs)).

Definition keccak256 (data : string) : result string :=
  let* bs := arrayify data in Ok (hexlify (Keccak.digest bs)).

Fixpoint all_decimal (s : string) : bool :=
  match s with
  | EmptyString => true
  | String c r =>
    let k := Z.of_N (N_of_ascii c) in (48 <=? k) && (k <=? 57) && all_decimal r
  end.

Fixpoint decimal_acc (acc : Z) (s : string) : Z :=
  match s with
  | EmptyString => acc
  | String c r => decimal_acc (10 * acc + (Z.of_N (N_of_ascii c) - 48)) r
  end.

Definition nonempty (s : string) : bool :=
  match s with EmptyString => false | _ => true end.

(** [BigNumber.from] of a string: [/^-?0x[0-9a-f]+$/i], then
    [/^-?[0-9]+$/]; anything else is not a BigNumber string. *)
Definition BigNumber_from (value : string) : result Z :=
  let neg := Hex.starts_with "-" value in
  let body := if neg then Hex.slice 1 value else value in
  let sign := fun z : Z => if neg then - z else z in
  if (Hex.starts_with "0x" body || Hex.starts_with "0X" body)
     && nonempty (Hex.slice 2 body) && Hex.all_hex (Hex.slice 2 body)
  then match Hex.to_Z (Hex.slice 2 body) with
       | Some z => Ok (sign z)
       | None => Throw (EthersError "invalid BigNumber string")
       end
  else if nonempty body && all_decimal body
  then Ok (sign (decimal_acc 0 body))
  else Throw (EthersError "invalid BigNumber string").

(** [a.xor(other)]: both operands must be non-negative. *)
Definition BigNumber_xor (a : Z) (other : string) : result Z :=
  let* o := BigNumber_from other in
  if (a <? 0) || (o <? 0)
  then Throw (EthersError "unbound-bitwise-result")
  else Ok (Z.lxor a o).

(** [toHexString]: an even number of digits, no other padding. *)
Definition BigNumber_toHexString (z : Z) : string :=
  if z <? 0
  then "-0x" ++ Hex.of_Z (2 * Nat.div2 (S (Hex.digits (- z)))) (- z)
  else "0x" ++ Hex.of_Z (2 * Nat.div2 (S (Hex.digits z))) z.

Fixpoint zeros (k : nat) : string :=
  match k with
  | O => ""
  | S j => String "0" (zeros j)
  end.

(** [hexZeroPad(value, length)] of a hexadecimal string. *)
Definition hexZeroPad (value : string) (length : nat) : result string :=
  if negb (isHexString value) then Throw (EthersError "invalid hex string")
  else if (2 * length + 2 <? String.length value)%nat
  then Throw (EthersError "value out of range")
  else Ok ("0x" ++ zeros (2 * length + 2 - String.length value) ++ Hex.slice 2 value).

End Ethers.

(** The 32-byte hexadecimal string of a number below [2^256], with its
    [0x] prefix: the form of private keys, random numbers, ciphertexts
    and shared secrets. *)
Definition hex32 (z : Z) : string := ("0x" ++ Hex.of_Z 64 z)%string.

(** The 32 bytes of a number below [2^256], most significant first. *)
Definition bytes32 (z : Z) : list byte :=
  match Hex.to_bytes (Hex.of_Z 64 z) with
  | Some bs => bs
  | None => []
  end.

(** The SHA-256 hash of the 32-byte x-coordinate of a point, as a
    hexadecimal string. *)
Definition hashOfX (S : Secp256k1.point) : string :=
  Ethers.hexlify (Sha256.digest (bytes32 (Noble.px S))).

(** The SHA-256 hash of both 32-byte coordinates of a point, the payload
    of its uncompressed encoding. *)
Definition hashOfXY (S : Secp256k1.point) : string :=
  Ethers.hexlify (Sha256.digest (bytes32 (Noble.px S) ++ bytes32 (Noble.py S))).

(** * Calls with a log

    Where a claim is about which external calls a function makes, the
    function is embedded with the log of those calls, in order. *)

Definition logged (E A : Type) : Type := (list E * result A)%type.

Definition lthrow {E A : Type} (e : error) : logged E A := ([], Throw e).

Definition lcall {E A : Type} (ev : E) (r : result A) : logged E A := ([ev], r).

Definition lbind {E A B : Type} (m : logged E A) (k : A -> logged E B) : logged E B :=
  match m with
  | (l, Ok a) => let (l', r) := k a in (l ++ l', r)
  | (l, Throw e) => (l, Throw e)
  end.

(** * The protocol library's helpers ([src/utils/utils])

    The harness imports [lengths], [assertValidPoint] and
    [assertValidPrivateKey] from a module that is not among the sources. *)

Module Utils.
Import Secp256k1.
Local Open Scope string_scope.
Local Open Scope Z_scope.

Record Lengths : Type := { privateKey : nat; publicKey : nat }.

(** Modelled from the spec: the [lengths] table of the missing utils
    module.  A private key is a 32-byte scalar in hexadecimal with the
    [0x] prefix; the public key handed to the shared-secret deriver is
    the uncompressed point, [0x04] followed by both 32-byte coordinates. *)
Definition lengths : Lengths := {| privateKey := 66; publicKey := 132 |}.

(** Modelled from the spec: [assertValidPoint] of the missing utils
    module, the specification's [validatePublicKeyPoint]: "fails with
    PointNotOnCurve unless p decodes to exact coordinate byte lengths and
    satisfies the curve equation". *)
Definition assertValidPoint (point : string) : result unit :=
  if Ethers.isHexString point && (String.length point =? 132)%nat
     && Hex.starts_with "0x04" point
  then
    match Hex.to_Z (String.substring 4 64 point), Hex.to_Z (String.substring 68 64 point) with
    | Some x, Some y =>
      if Zmod.eqb (Zmod.mul (fe y) (fe y)) (Noble.weierstrass (fe x))
      then Ok tt else Throw PointNotOnCurve
    | _, _ => Throw PointNotOnCurve
    end
  else Throw PointNotOnCurve.

(** Modelled from the spec: [assertValidPrivateKey] of the missing utils
    module, the specification's [validatePrivateKey]: "fails with
    InvalidPrivateKey unless k is exactly the fixed scalar byte length,
    hex-encoded, and numerically within (0, order)". *)
Definition assertValidPrivateKey (key : string) : result unit :=
  if Ethers.isHexString key && (String.length key =? 66)%nat
  then
    match Hex.to_Z (Hex.slice 2 key) with
    | Some k => if (0 <? k) && (k <? n) then Ok tt else Throw InvalidPrivateKey
    | None => Throw InvalidPrivateKey
    end
  else Throw InvalidPrivateKey.

End Utils.

(** * The protocol library's [KeyPair] class ([src/classes/KeyPair])

    The class is not among the sources; the harness uses its
    constructor, [getUncompressedFromX], [mulPublicKey] and [address]. *)

Module KeyPair.
Import Secp256k1.
Local Open Scope string_scope.
Local Open Scope Z_scope.

(** Modelled from the spec: the data model's KeyPair, "holds at most one
    of {PrivateKey, PublicKey} ... plus the derived PublicKey (computed
    from PrivateKey when present)".  The public key is kept uncompressed,
    with the [0x] prefix. *)
Record t : Type := { privateKeyHex : option string; publicKeyHex : option string }.

Definition uncompressed (Q : point) : string := "0x" ++ Noble.toHex Q false.

(** Modelled from the spec: the constructor of the missing class.  A key
    of the private-key length is validated as a private key and its public
    key derived; any other key is a public key, compressed (33 bytes) or
    uncompressed (65 bytes), which must be a point of the curve; "any
    other length is rejected before cryptographic work begins". *)
Definition new (key : string) : result t :=
  if (String.length key =? Utils.privateKey Utils.lengths)%nat then
    Utils.assertValidPrivateKey key ;;
    let* pub := Noble.getPublicKey (Hex.slice 2 key) false in
    Ok {| privateKeyHex := Some key;
          publicKeyHex := Some ("0x" ++ Noble.bytesToHex pub) |}
  else if (String.length key =? 132)%nat then
    Utils.assertValidPoint key ;;
    Ok {| privateKeyHex := None; publicKeyHex := Some key |}
  else if (String.length key =? 68)%nat && Ethers.isHexString key then
    match Noble.fromHex (Hex.slice 2 key) with
    | Ok Q => Ok {| privateKeyHex := None; publicKeyHex := Some (uncompressed Q) |}
    | Throw _ => Throw PointNotOnCurve
    end
  else Throw InvalidPublicKey.

(** Modelled from the spec: [getUncompressedFromX] of the missing class,
    the specification's [recoverUncompressedFromX]: "solves for both
    candidate y values, selects the even-y candidate by convention ... and
    returns the uncompressed point.  Fails with PointRecoveryFailed if no
    valid y exists for that x". *)
Definition getUncompressedFromX (pkx : string) : result string :=
  if Ethers.isHexString pkx then
    match Hex.to_Z (Hex.slice 2 pkx) with
    | Some x =>
      if x <? P then
        let y := Noble.sqrtMod (Noble.weierstrass (fe x)) in
        if Zmod.eqb (Zmod.mul y y) (Noble.weierstrass (fe x)) then
          let y' := Zmod.opp y in
          let even_y := if Z.even (Zmod.to_Z y) then y else y' in
          Ok (uncompressed (Curve.Aff (fe x) even_y))
        else Throw PointRecoveryFailed
      else Throw PointRecoveryFailed
    | None => Throw PointRecoveryFailed
    end
  else Throw PointRecoveryFailed.

(** The point a held public key denotes. *)
Definition publicPoint (kp : t) : result point :=
  match publicKeyHex kp with
  | None => Throw MissingPublicKey
  | Some pub =>
    match Hex.to_Z (String.substring 4 64 pub), Hex.to_Z (String.substring 68 64 pub) with
    | Some x, Some y => Ok (Curve.Aff (fe x) (fe y))
    | _, _ => Throw MissingPublicKey
    end
  end.

(** Modelled from the spec: [mulPublicKey] of the missing class, the
    specification's [derivePublicKey]: "scalar-multiplies the held public
    key by scalar ... and returns a new KeyPair holding only the resulting
    public key"; "fails with InvalidScalar if the scalar is out of range"
    (zero or at least the curve order). *)
Definition mulPublicKey (kp : t) (value : string) : result t :=
  let* Q := publicPoint kp in
  if Ethers.isHexString value then
    match Hex.to_Z (Hex.slice 2 value) with
    | Some r =>
      if (0 <? r) && (r <? n)
      then Ok {| privateKeyHex := None;
                 publicKeyHex := Some (uncompressed (Curve.mul r Q)) |}
      else Throw InvalidScalar
    | None => Throw InvalidScalar
    end
  else Throw InvalidScalar.

(** The address of a point: the last 20 bytes of the Keccak-256 hash of
    its two coordinates. *)
Definition addressOfPoint (Q : point) : string :=
  match Hex.to_bytes (Noble.numTo32bStr (Noble.px Q) ++ Noble.numTo32bStr (Noble.py Q)) with
  | Some bs => "0x" ++ Hex.of_bytes (skipn 12 (Keccak.digest bs))
  | None => "0x"
  end.

(** Modelled from the spec: the [address] getter of the missing class,
    "last N bytes of a keccak/ripemd-style hash over the point's
    coordinates, per the target chain's convention"; "fails with
    MissingPublicKey if the KeyPair holds neither key". *)
Definition address (kp : t) : result string :=
  let* Q := publicPoint kp in Ok (addressOfPoint Q).

End KeyPair.

(** * Arithmetic on machine words

    The numbers of secp256k1 have 256 bits.  Where a proof evaluates a
    modular power or a scalar multiplication of the curve, it does so on
    [bigZ], whose digits are machine words; the results are related to
    the definitions on [Z] and [Zmod] in the theorems. *)

Module Fast.

(** [a ^ e mod m] by repeated squaring. *)
Fixpoint pow_mod_pos (a : bigZ) (e : positive) (m : bigZ) : bigZ :=
  match e with
  | xH => BigZ.modulo a m
  | xO e' => let h := pow_mod_pos a e' m in BigZ.modulo (BigZ.mul h h) m
  | xI e' =>
    let h := pow_mod_pos a e' m in
    BigZ.modulo (BigZ.mul (BigZ.modulo (BigZ.mul h h) m) a) m
  end.

Definition pow_mod (a e m : Z) : Z :=
  match e with
  | Z0 => 1 mod m
  | Zpos q => BigZ.to_Z (pow_mod_pos (BigZ.of_Z a) q (BigZ.of_Z m))
  | Zneg _ => 0
  end.

(** Affine points with coordinates on [bigZ]; [None] is the point at
    infinity. *)
Definition point : Type := option (bigZ * bigZ).

Section Curve.
Variable m : bigZ.      (** the field prime *)
Variable e : positive.  (** the field prime less two: the exponent of the inverse *)

Definition inv (d : bigZ) : bigZ := pow_mod_pos d e m.

(** The addition of [Curve.add], branch by branch. *)
Definition add (A B : point) : point :=
  match A, B with
  | None, _ => B
  | _, None => A
  | Some (x1, y1), Some (x2, y2) =>
    if BigZ.eqb (BigZ.modulo (BigZ.sub x1 x2) m) BigZ.zero then
      if BigZ.eqb (BigZ.modulo (BigZ.add y1 y2) m) BigZ.zero then None
      else
        let l := BigZ.modulo
                   (BigZ.mul (BigZ.add (BigZ.add (BigZ.mul x1 x1) (BigZ.mul x1 x1)) (BigZ.mul x1 x1))
                             (inv (BigZ.add y1 y1))) m in
        let x3 := BigZ.modulo (BigZ.sub (BigZ.sub (BigZ.mul l l) x1) x2) m in
        Some (x3, BigZ.modulo (BigZ.sub (BigZ.mul l (BigZ.sub x1 x3)) y1) m)
    else
      let l := BigZ.modulo (BigZ.mul (BigZ.sub y2 y1) (inv (BigZ.sub x2 x1))) m in
      let x3 := BigZ.modulo (BigZ.sub (BigZ.sub (BigZ.mul l l) x1) x2) m in
      Some (x3, BigZ.modulo (BigZ.sub (BigZ.mul l (BigZ.sub x1 x3)) y1) m)
  end.

Fixpoint mul_pos (k : positive) (A : point) : point :=
  match k with
  | xH => A
  | xO k' => let Q := mul_pos k' A in add Q Q
  | xI k' => let Q := mul_pos k' A in add A (add Q Q)
  end.

End Curve.

(** The point of the curve over [Zmod p] that a pair of numbers
    denotes. *)
Definition embed (p : Z) (A : point) : Curve.point p :=
  match A with
  | None => Curve.Inf
  | Some (x, y) => Curve.Aff (Zmod.of_Z p (BigZ.to_Z x)) (Zmod.of_Z p (BigZ.to_Z y))
  end.

(** The constants of secp256k1 on [bigZ]. *)
Definition P : bigZ := Eval vm_compute in BigZ.of_Z Secp256k1.P.
Definition P_less_2 : positive := Eval vm_compute in Z.to_pos (Secp256k1.P - 2).
Definition n : positive := Eval vm_compute in Z.to_pos Secp256k1.n.
Definition G : point :=
  Eval vm_compute in Some (BigZ.of_Z Secp256k1.Gx, BigZ.of_Z Secp256k1.Gy).

(** [k * G] for a positive [k]. *)
Definition mul_G (k : positive) : point := mul_pos P P_less_2 k G.

End Fast.

(** * Primality certificates

    The field prime and the group order of secp256k1 are shown prime by
    a chain of Pocklington certificates ending in trial divisions. *)

Module Primality.

Fixpoint trial_from (fuel : nat) (d N : Z) : bool :=
  match fuel with
  | O => false
  | S f =>
    if N <? d * d then true
    else if N mod d =? 0 then false
    else trial_from f (d + 1) N
  end.

Definition trial_prime (N : Z) : bool :=
  (1 <? N) && trial_from (S (Z.to_nat (Z.sqrt N))) 2 N.

Definition product (qs : list Z) : Z := fold_right Z.mul 1 qs.

(** [qs] are distinct primes dividing [N - 1] whose product exceeds the
    square root of [N]; [a] is the witness. *)
Definition pock_check (N a : Z) (qs : list Z) : bool :=
  (1 <? N) && (Fast.pow_mod a (N - 1) N =? 1) &&
  forallb (fun q => ((N - 1) mod q =? 0) &&
                    (Z.gcd (Fast.pow_mod a ((N - 1) / q) N - 1) N =? 1)) qs &&
  (N <? product qs * product qs).

Inductive cert : Type :=
| Trial (N : Z)
| Pock (N a : Z) (qs : list Z).

Fixpoint nodupb (l : list Z) : bool :=
  match l with
  | [] => true
  | x :: r => negb (existsb (Z.eqb x) r) && nodupb r
  end.

Fixpoint check_chain (known : list Z) (cs : list cert) : option (list Z) :=
  match cs with
  | [] => Some known
  | Trial N :: r => if trial_prime N then check_chain (N :: known) r else None
  | Pock N a qs :: r =>
    if pock_check N a qs && forallb (fun q => existsb (Z.eqb q) known) qs && nodupb qs
    then check_chain (N :: known) r else None
  end.

Definition chain_proves (cs : list cert) (Ns : list Z) : bool :=
  match check_chain [] cs with
  | Some l => forallb (fun N => existsb (Z.eqb N) l) Ns
  | None => false
  end.

Definition secp256k1_chain : list cert :=
  [ Trial 96557; Trial 120233; Trial 1627771; Trial 7240687; Trial 44706919;
    Trial 107590001; Trial 545358713;
    Pock 297159362677 2 [1627771];
    Pock 174723607534414371449 2 [44706919; 120233];
    Pock 29047611873442575647497758179 2 [297159362677; 545358713];
    Pock 341948486974166000522343609283189 2 [29047611873442575647497758179];
    Pock 255515944373312847190720520512484175977 2 [107590001; 7240687; 96557];
    Pock 205115282021455665897114700593932402728804164701536103180137503955397371 2
         [255515944373312847190720520512484175977];
    Pock Secp256k1.n 2 [341948486974166000522343609283189; 174723607534414371449];
    Pock Secp256k1.P 2
         [205115282021455665897114700593932402728804164701536103180137503955397371] ].

End Primality.

(** * The data the harness reads *)

(** The [Wallet] loaded from the mnemonic: the harness reads its
    [privateKey] and [publicKey]. *)
Record Wallet : Type := { wallet_privateKey : string; wallet_publicKey : string }.

(** An [Announcement]: the x-coordinate of the ephemeral public key and
    the encrypted random number, with the position of the event. *)
Record Announcement : Type :=
  { pkx : string; ciphertext : string; blockNumber : Z; logIndex : Z }.


(** * The scan-performance harness ([test/...], the first source file) *)

Module ScanPerformance.
Local Open Scope string_scope.
Local Open Scope Z_scope.

(** The external calls of [getSharedSecret], for its log. *)
Inductive call : Type :=
| CallAssertValidPoint
| CallAssertValidPrivateKey
| CallNobleGetSharedSecret
| CallSha256.

(** [getSharedSecret(privateKey, publicKey)], with the log of the calls
    it makes. *)
Definition getSharedSecret_logged (privateKey publicKey : string) : logged call string :=
  if negb (String.length privateKey =? Utils.privateKey Utils.lengths)%nat
     || negb (Ethers.isHexString privateKey)
  then lthrow (Error "Invalid private key")
  else if negb (String.length publicKey =? Utils.publicKey Utils.lengths)%nat
          || negb (Ethers.isHexString publicKey)
  then lthrow (Error "Invalid public key")
  else
    lbind (lcall CallAssertValidPoint (Utils.assertValidPoint publicKey)) (fun _ =>
    lbind (lcall CallAssertValidPrivateKey (Utils.assertValidPrivateKey privateKey)) (fun _ =>
    lbind (lcall CallNobleGetSharedSecret
             (Noble.getSharedSecret (Hex.slice 2 privateKey) (Hex.slice 2 publicKey) true))
          (fun sharedSecret =>
    let sharedSecretHex := Noble.bytesToHex sharedSecret in
    lcall CallSha256 (Ethers.sha256 ("0x" ++ Hex.slice 2 sharedSecretHex))))).

Definition getSharedSecret (privateKey publicKey : string) : result string :=
  snd (getSharedSecret_logged privateKey publicKey).

(** JavaScript truthiness of a string and of an optional string. *)
Definition truthy (s : string) : bool :=
  match s with EmptyString => false | String _ _ => true end.

Definition truthy_opt (s : option string) : bool :=
  match s with Some v => truthy v | None => false end.

(** The body of the reducer, between its clock readings. *)

(** Line 108: the ephemeral public key from its x-coordinate. *)
Definition recoverStage (ann : Announcement) : result string :=
  KeyPair.getUncompressedFromX (pkx ann).

(** Lines 111-121: the viewing key pair, the guards and the shared
    secret. *)
Definition secretStage (receiver : Wallet) (ann : Announcement)
           (ephemeralPublicKey : string) : result string :=
  let* viewingKeyPair := KeyPair.new (wallet_privateKey receiver) in
  assert_that (truthy ephemeralPublicKey && truthy (ciphertext ann))
              (Error "Input must be of type EncryptedPayload to decrypt") ;;
  match KeyPair.privateKeyHex viewingKeyPair with
  | Some privateKeyHex =>
    assert_that (truthy privateKeyHex)
                (Error "KeyPair has no associated private key to decrypt with") ;;
    Utils.assertValidPoint ephemeralPublicKey ;;
    getSharedSecret privateKeyHex ephemeralPublicKey
  | None => Throw (Error "KeyPair has no associated private key to decrypt with")
  end.

(** Line 123: the tag, computed and dropped. *)
Definition tagStage (sharedSecret : string) : result string :=
  Ethers.sha256 sharedSecret.

(** Lines 125-126: the random number, by XOR. *)
Definition decryptStage (ann : Announcement) (sharedSecret : string) : result string :=
  let* c := Ethers.BigNumber_from (ciphertext ann) in
  let* plaintext := Ethers.BigNumber_xor c sharedSecret in
  Ethers.hexZeroPad (Ethers.BigNumber_toHexString plaintext) 32.

(** Lines 129-131: the receiving address for that random number. *)
Definition addressStage (receiver : Wallet) (randomNumber : string) : result string :=
  let* spendingKeyPair := KeyPair.new (wallet_publicKey receiver) in
  let* derived := KeyPair.mulPublicKey spendingKeyPair randomNumber in
  KeyPair.address derived.

(** The value of the last expression of the reducer's body: the
    receiving address computed for one announcement. *)
Definition computedReceivingAddress (receiver : Wallet) (ann : Announcement)
  : result string :=
  let* ephemeralPublicKey := recoverStage ann in
  let* sharedSecret := secretStage receiver ann ephemeralPublicKey in
  let* _ := tagStage sharedSecret in
  let* randomNumber := decryptStage ann sharedSecret in
  addressStage receiver randomNumber.

(** [totalTime[i] += d] *)
Fixpoint add_at (i : nat) (d : Z) (l : list Z) : list Z :=
  match i, l with
  | _, [] => []
  | O, x :: r => (x + d) :: r
  | S j, x :: r => x :: add_at j d r
  end.

(** The reducer (lines 104-141).  [now k] is the value of the [k]-th call
    of [Date.now()]; the state threads the number of readings made and
    the seven running totals. *)
Definition reducer (now : nat -> Z) (receiver : Wallet)
           (st : nat * list Z) (ann : Announcement) : result (nat * list Z) :=
  let (k, totalTime) := st in
  let t1 := now k in
  let* ephemeralPublicKey := recoverStage ann in
  let t2 := now (k + 1)%nat in
  let* sharedSecret := secretStage receiver ann ephemeralPublicKey in
  let t3 := now (k + 2)%nat in
  let* _ := tagStage sharedSecret in
  let t4 := now (k + 3)%nat in
  let* randomNumber := decryptStage ann sharedSecret in
  let t5 := now (k + 4)%nat in
  let* _ := addressStage receiver randomNumber in
  let t6 := now (k + 5)%nat in
  let totalTime := add_at 0 (t2 - t1) totalTime in
  let totalTime := add_at 1 (t3 - t2) totalTime in
  let totalTime := add_at 2 (t4 - t3) totalTime in
  let totalTime := add_at 3 (t5 - t4) totalTime in
  let totalTime := add_at 4 (t6 - t5) totalTime in
  let totalTime := add_at 5 (t4 - t1) totalTime in
  let totalTime := add_at 6 (t6 - t1 - (t4 - t3)) totalTime in
  Ok ((k + 6)%nat, totalTime).

(** [announcements.reduce(reducer, [0, 0, 0, 0, 0, 0, 0])]: an exception
    in the reducer ends the reduction. *)
Fixpoint reduce (now : nat -> Z) (receiver : Wallet) (st : nat * list Z)
         (announcements : list Announcement) : result (nat * list Z) :=
  match announcements with
  | [] => Ok st
  | ann :: rest =>
    let* st' := reducer now receiver st ann in
    reduce now receiver st' rest
  end.



(** An announcement gets through the reducer's body. *)
Definition returns (receiver : Wallet) (ann : Announcement) : Prop :=
  is_ok (computedReceivingAddress receiver ann) = true.

Definition scan (now : nat -> Z) (receiver : Wallet)
           (announcements : list Announcement) : result (list Z) :=
  let* st := reduce now receiver (O, [0; 0; 0; 0; 0; 0; 0]) announcements in
  Ok (snd st).

End ScanPerformance.

(** * The sender's side

    The harness only scans.  What an announcement holds comes from the
    protocol library's sending path, which is not among the sources. *)

Module Sender.
Local Open Scope string_scope.
Local Open Scope Z_scope.

(** Modelled from the spec: the encryption of the random number, "XOR
    with a shared secret", over "fixed 32-byte width". *)
Definition encrypt (randomNumber sharedSecret : string) : result string :=
  let* r := Ethers.BigNumber_from randomNumber in
  let* c := Ethers.BigNumber_xor r sharedSecret in
  Ethers.hexZeroPad (Ethers.BigNumber_toHexString c) 32.

(** Modelled from the spec: the announcement for a payment, "the on-chain
    record pairing an ephemeral public key (x-coordinate only) with an
    encrypted random value"; the shared secret is the one of the ephemeral
    private key and the recipient's viewing public key. *)
Definition announce (ephemeralPrivateKey viewingPublicKey randomNumber : string)
           (block index : Z) : result Announcement :=
  let* ephemeral := KeyPair.new ephemeralPrivateKey in
  let* E := KeyPair.publicPoint ephemeral in
  let* secret := ScanPerformance.getSharedSecret ephemeralPrivateKey viewingPublicKey in
  let* c := encrypt randomNumber secret in
  Ok {| pkx := "0x" ++ Noble.numTo32bStr (Noble.px E);
        ciphertext := c; blockNumber := block; logIndex := index |}.

End Sender.

(** * The announcement source ([Umbra.fetchAllAnnouncements])

    The harness calls [umbra.fetchAllAnnouncements] with and without
    [chainConfig.subgraphUrl]; the method itself is not among the
    sources. *)

Module AnnouncementSource.
Local Open Scope string_scope.
Local Open Scope Z_scope.















End AnnouncementSource.

(** * The [ConnectWallet] component (the second source file) *)

Module ConnectWallet.
Local Open Scope string_scope.

(** What the click handler does to the outside, in order. *)
Inductive action : Type :=
| RouterPush (name : string)
| ConnectWalletCall.

(** [connectWalletWithRedirect], the handler [useWallet(to, router)]
    returns.  [userAddress] is the value of the store's ref when the
    handler runs; [connectWallet] and [push] are the outcomes of the
    awaited calls. *)
Definition connectWalletWithRedirect (to : string) (userAddress : option string)
           (connectWallet : result unit) (push : string -> result unit)
  : logged action unit :=
  if ScanPerformance.truthy_opt userAddress && ScanPerformance.truthy to then
    lcall (RouterPush to) (push to)
  else if ScanPerformance.truthy_opt userAddress then
    ([], Ok tt)
  else
    lbind (lcall ConnectWalletCall connectWallet) (fun _ =>
    if ScanPerformance.truthy to then lcall (RouterPush to) (push to)
    else ([], Ok tt)).

(** The pages a run navigates to, in order. *)
Fixpoint pushes (log : list action) : list string :=
  match log with
  | [] => []
  | RouterPush name :: r => name :: pushes r
  | ConnectWalletCall :: r => pushes r
  end.

(** [props.to || 'home'] *)
Definition targetOf (props_to : option string) : string :=
  match props_to with
  | Some t => if ScanPerformance.truthy t then t else "home"
  | None => "home"
  end.

(** The handler [setup(props)] exposes. *)
Definition setup (props_to : option string) (userAddress : option string)
           (connectWallet : result unit) (push : string -> result unit)
  : logged action unit :=
  connectWalletWithRedirect (targetOf props_to) userAddress connectWallet push.

End ConnectWallet.

(** * Concrete inputs

    Keys, wallets and announcements used where a statement is evaluated
    on an input. *)

Module Examples.
Import Secp256k1.
Local Open Scope string_scope.
Local Open Scope Z_scope.

(** The uncompressed public key of the private key 1, the generator. *)
Definition publicKey1 : string := KeyPair.uncompressed G.

(** A receiver whose viewing and spending key are both the key 1. *)
Definition receiver : Wallet :=
  {| wallet_privateKey := hex32 1; wallet_publicKey := publicKey1 |}.

(** An announcement whose x-coordinate is all ones: not below the field
    prime, so not the x-coordinate of a point. *)
Definition unrecoverable : Announcement :=
  {| pkx := "0xffffffffffffffffffffffffffffffffffffffffffffffffffffffffffffffff";
     ciphertext := "0x0000000000000000000000000000000000000000000000000000000000000001";
     blockNumber := 8686346; logIndex := 0 |}.

(** A key of the right length and format for the point (1, 1), which is
    not on the curve. *)
Definition offCurveKey : string :=
  "0x04" ++ Noble.numTo32bStr 1 ++ Noble.numTo32bStr 1.

Definition event (block index : Z) : Announcement :=
  {| pkx := hex32 1; ciphertext := hex32 1; blockNumber := block; logIndex := index |}.





End Examples.

(** * Arithmetic on machine words: agreement with [Z] and [Zmod] *)

Module FastFacts.
Local Open Scope Z_scope.

Lemma mul_mod_congr (a a' c c' m : Z) :
  a mod m = a' mod m -> c mod m = c' mod m -> (a * c) mod m = (a' * c') mod m.
Proof.
  intros Ha Hc. rewrite (Zmult_mod a c), (Zmult_mod a' c'), Ha, Hc. reflexivity.
Qed.

Lemma pow_mod_pos_spec (a : bigZ) (e : positive) (m : bigZ) :
  BigZ.to_Z (Fast.pow_mod_pos a e m) = (BigZ.to_Z a ^ Zpos e) mod BigZ.to_Z m.
Proof.
  induction e as [e IH|e IH|]; cbn [Fast.pow_mod_pos].
  - rewrite !BigZ.spec_modulo, !BigZ.spec_mul, !BigZ.spec_modulo, !BigZ.spec_mul, IH.
    replace (Zpos e~1) with (Zpos e + Zpos e + 1) by lia.
    rewrite !Z.pow_add_r, Z.pow_1_r by lia.
    apply mul_mod_congr; [|reflexivity].
    rewrite Zmod_mod. apply mul_mod_congr; apply Zmod_mod.
  - rewrite !BigZ.spec_modulo, !BigZ.spec_mul, IH.
    replace (Zpos e~0) with (Zpos e + Zpos e) by lia.
    rewrite Z.pow_add_r by lia.
    apply mul_mod_congr; apply Zmod_mod.
  - rewrite BigZ.spec_modulo, Z.pow_1_r. reflexivity.
Qed.

Lemma pow_mod_spec (a e m : Z) : Fast.pow_mod a e m = a ^ e mod m.
Proof.
  destruct e as [|q|q]; cbn [Fast.pow_mod].
  - reflexivity.
  - rewrite pow_mod_pos_spec, !BigZ.spec_of_Z. reflexivity.
  - rewrite Z.pow_neg_r by lia. symmetry. apply Zmod_0_l.
Qed.

Section Simulation.
Variable p : Z.
Hypothesis prime_p : Z.prime p.
Variable m : bigZ.
Hypothesis m_p : BigZ.to_Z m = p.
Variable e : positive.
Hypothesis e_p : Zpos e = p - 2.

Lemma inv_ok (d : bigZ) :
  Zmod.of_Z p (BigZ.to_Z (Fast.inv m e d)) = Zmod.inv (Zmod.of_Z p (BigZ.to_Z d)).
Proof.
  unfold Fast.inv. rewrite pow_mod_pos_spec, m_p, Zmod.of_Z_mod.
  rewrite Zmod.of_Z_pow by lia. rewrite e_p.
  pose proof (Z.prime_ge_2 p prime_p) as Hp.
  destruct (Zmod.eqb_spec (Zmod.of_Z p (BigZ.to_Z d)) Zmod.zero) as [E|E].
  - rewrite E, Zmod.inv_0. apply Zmod.pow_0_l. rewrite <- e_p. lia.
  - apply Zmod.fermat_inv; assumption.
Qed.

Lemma eqb_of_Z (a c : Z) :
  Zmod.eqb (Zmod.of_Z p a) (Zmod.of_Z p c) = ((a - c) mod p =? 0).
Proof.
  pose proof (Z.prime_ge_2 p prime_p) as Hp.
  destruct (Zmod.eqb_spec (Zmod.of_Z p a) (Zmod.of_Z p c)) as [E|E];
    destruct (Z.eqb_spec ((a - c) mod p) 0) as [F|F]; try reflexivity; exfalso.
  - apply F. rewrite Zmod.of_Z_inj in E. rewrite Zminus_mod, E, Z.sub_diag.
    apply Zmod_0_l.
  - apply E. apply Zmod.of_Z_inj.
    replace a with (c + (a - c)) by lia.
    rewrite Zplus_mod, F, Z.add_0_r, Zmod_mod. reflexivity.
Qed.

Lemma add_ok (A B : Fast.point) :
  Fast.embed p (Fast.add m e A B) = Curve.add (Fast.embed p A) (Fast.embed p B).
Proof.
  destruct A as [[x1 y1]|], B as [[x2 y2]|]; try reflexivity.
  cbn [Fast.add Fast.embed Curve.add].
  rewrite !BigZ.spec_eqb, !BigZ.spec_modulo, BigZ.spec_sub, BigZ.spec_add, BigZ.spec_0, m_p.
  rewrite <- Zmod.of_Z_opp.
  rewrite !eqb_of_Z. replace (BigZ.to_Z y1 - - BigZ.to_Z y2) with (BigZ.to_Z y1 + BigZ.to_Z y2) by lia.
  destruct ((BigZ.to_Z x1 - BigZ.to_Z x2) mod p =? 0).
  - destruct ((BigZ.to_Z y1 + BigZ.to_Z y2) mod p =? 0); [reflexivity|].
    cbn [Fast.embed]. cbv zeta.
    repeat rewrite ?BigZ.spec_modulo, ?BigZ.spec_mul, ?BigZ.spec_add, ?BigZ.spec_sub, ?m_p,
      ?Zmod.of_Z_mod, ?Zmod.of_Z_mul, ?Zmod.of_Z_add, ?Zmod.of_Z_sub, ?inv_ok.
    reflexivity.
  - cbn [Fast.embed]. cbv zeta.
    repeat rewrite ?BigZ.spec_modulo, ?BigZ.spec_mul, ?BigZ.spec_add, ?BigZ.spec_sub, ?m_p,
      ?Zmod.of_Z_mod, ?Zmod.of_Z_mul, ?Zmod.of_Z_add, ?Zmod.of_Z_sub, ?inv_ok.
    reflexivity.
Qed.

Lemma mul_pos_ok (k : positive) (A : Fast.point) :
  Fast.embed p (Fast.mul_pos m e k A) = Curve.mul_pos k (Fast.embed p A).
Proof.
  induction k as [k IH|k IH|]; cbn [Fast.mul_pos Curve.mul_pos]; cbv zeta.
  - rewrite !add_ok, IH. reflexivity.
  - rewrite add_ok, IH. reflexivity.
  - reflexivity.
Qed.

End Simulation.

End FastFacts.

(** * Soundness of the primality certificates *)

Module PrimalityFacts.
Import Primality.

Lemma trial_from_sound fuel : forall d N,
  1 < d -> (forall k, 1 < k < d -> ~ (k | N)) ->
  trial_from fuel d N = true -> forall k, 1 < k < N -> ~ (k | N).
Proof.
  induction fuel as [|f IH]; simpl; intros d N Hd Hlow H; [discriminate|].
  destruct (Z.ltb_spec N (d * d)) as [Hlt|Hge].
  - intros k Hk [e He].
    assert (He0 : 0 < e) by nia.
    assert (He1 : e <> 1) by (intro; subst e; lia).
    assert (He2 : e * 2 <= e * k) by (apply Z.mul_le_mono_nonneg_l; lia).
    assert (He' : 1 < e < N) by lia.
    destruct (Z.lt_ge_cases k d) as [Hkd|Hkd].
    + apply (Hlow k); [lia|]. exists e; exact He.
    + assert (e < d) by nia.
      apply (Hlow e); [lia|]. exists k. lia.
  - destruct (Z.eqb_spec (N mod d) 0) as [E|NE]; [discriminate|].
    apply (IH (d + 1) N); auto; [lia|].
    intros k Hk Hdiv.
    destruct (Z.eq_dec k d) as [->|Hne].
    + apply NE. apply Z.mod_divide; [lia|exact Hdiv].
    + apply (Hlow k); [lia|exact Hdiv].
Qed.

Lemma trial_prime_sound N : trial_prime N = true -> Z.prime N.
Proof.
  unfold trial_prime. intros H. apply andb_prop in H. destruct H as [H1 H2].
  apply Z.ltb_lt in H1. split; [exact H1|].
  apply (trial_from_sound (S (Z.to_nat (Z.sqrt N))) 2 N); [lia | intros; lia | exact H2].
Qed.

Lemma prime_divisor_exists n : 1 < n -> exists r, Z.prime r /\ (r | n) /\ r <= n.
Proof.
  induction (Z.lt_wf 0 n) as [n _ IH]. intros Hn.
  destruct (prime_dec n) as [Hp|Hnp].
  - exists n. split; [apply prime_alt; exact Hp|]. split; [apply Z.divide_refl|lia].
  - destruct (not_prime_divide n Hn Hnp) as [d [Hd Hdiv]].
    destruct (IH d ltac:(lia) ltac:(lia)) as [r [Hr [Hrd Hle]]].
    exists r. split; [exact Hr|]. split; [|lia].
    eapply Z.divide_trans; eauto.
Qed.

Lemma small_prime_divisor N :
  1 < N -> ~ Z.prime N -> exists r, Z.prime r /\ (r | N) /\ r * r <= N.
Proof.
  intros HN Hnp.
  assert (Hnp' : ~ prime N) by (intro; apply Hnp; apply prime_alt; assumption).
  destruct (not_prime_divide N HN Hnp') as [d [Hd [e He]]].
  assert (He0 : 0 < e) by nia.
  assert (He1 : e <> 1) by (intro; subst e; lia).
  assert (He2 : e * 2 <= e * d) by (apply Z.mul_le_mono_nonneg_l; lia).
  assert (Hrange : 1 < e < N) by lia.
  destruct (Z.le_ge_cases d e) as [Hle|Hle].
  - destruct (prime_divisor_exists d ltac:(lia)) as [r [Hr [Hrd Hrle]]].
    pose proof (Z.prime_ge_2 r Hr).
    exists r. split; [exact Hr|]. split.
    + apply Z.divide_trans with d; [exact Hrd|]. exists e. lia.
    + nia.
  - destruct (prime_divisor_exists e ltac:(lia)) as [r [Hr [Hrd Hrle]]].
    pose proof (Z.prime_ge_2 r Hr).
    exists r. split; [exact Hr|]. split.
    + apply Z.divide_trans with e; [exact Hrd|]. exists d. lia.
    + nia.
Qed.

Lemma product_divides (qs : list Z) (m : Z) :
  Forall Z.prime qs -> NoDup qs -> Forall (fun q => (q | m)) qs -> (product qs | m).
Proof.
  induction qs as [|q qs IH]; simpl; intros Hpr Hnd Hdiv.
  - apply Z.divide_1_l.
  - inversion Hpr as [|? ? Hq Hqs]; subst. inversion Hnd as [|? ? Hnin Hnd']; subst.
    inversion Hdiv as [|? ? Hqm Hrest]; subst.
    specialize (IH Hqs Hnd' Hrest).
    assert (Hco : Z.gcd q (product qs) = 1).
    { clear - Hq Hqs Hnin. induction qs as [|q' qs IH]; simpl.
      - apply Z.gcd_1_r.
      - inversion Hqs as [|? ? Hq' Hqs']; subst.
        apply Z.coprime_mul_r.
        + apply Z.coprime_prime_l; [exact Hq|].
          intro Hd. apply (Z.divide_prime_prime _ _ Hq Hq') in Hd.
          apply Hnin. left. symmetry. exact Hd.
        + apply IH; [exact Hqs'|]. intro Hin. apply Hnin. right. exact Hin. }
    destruct IH as [k Hk]. subst m.
    apply Z.mul_divide_mono_r.
    apply Z.gauss with (m := product qs); [|exact Hco].
    rewrite Z.mul_comm. exact Hqm.
Qed.

Section Pocklington.
Variables (N a : Z) (qs : list Z).
Hypothesis HN : 1 < N.
Hypothesis Hpow : a ^ (N - 1) mod N = 1.
Hypothesis Hqs : Forall Z.prime qs.
Hypothesis Hnd : NoDup qs.
Hypothesis Hdiv : Forall (fun q => (q | N - 1)) qs.
Hypothesis Hgcd : Forall (fun q => Z.gcd (a ^ ((N - 1) / q) mod N - 1) N = 1) qs.

Lemma pock_divisor r : Z.prime r -> (r | N) -> (product qs | r - 1).
Proof.
  intros Hr HrN.
  pose proof (Z.prime_ge_2 r Hr) as Hr2.
  assert (Har : a ^ (N - 1) mod r = 1).
  { rewrite <- (Z.mod_mod_divide _ N r HrN), Hpow. apply Z.mod_small. lia. }
  assert (Hanz : a mod r <> 0).
  { intro E. assert (E0 : a ^ (N - 1) mod r = 0).
    { rewrite <- Z.mod_pow_l, E. rewrite Z.pow_0_l by lia. apply Z.mod_0_l. lia. }
    lia. }
  assert (Hcop : Z.coprime (Zmod.to_Z (Zmod.of_Z r a)) r).
  { rewrite Zmod.to_Z_of_Z. apply Z.coprime_mod_l_iff.
    unfold Z.coprime. rewrite Z.gcd_comm. apply Z.coprime_prime_l; [exact Hr|].
    intro D. apply Hanz. apply Z.mod_divide; [lia|exact D]. }
  set (A := Zstar.of_Zmod (Zmod.of_Z r a)).
  assert (ApowZ : forall e, 0 <= e -> Zmod.to_Z (Zstar.to_Zmod (Zstar.pow A e)) = a ^ e mod r).
  { intros e He. rewrite Zstar.to_Zmod_pow. unfold A. rewrite Zstar.to_Zmod_of_Zmod by exact Hcop.
    rewrite Zmod.to_Z_pow_nonneg_r by exact He. rewrite Zmod.to_Z_of_Z. apply Z.mod_pow_l. }
  assert (Aone : forall e, 0 <= e -> a ^ e mod r = 1 -> Zstar.pow A e = Zstar.one).
  { intros e He E. apply Zstar.to_Zmod_inj. apply Zmod.to_Z_inj.
    rewrite ApowZ by exact He. rewrite E, Zstar.to_Zmod_1, Zmod.to_Z_1_pos; lia. }
  assert (A1 : Zstar.pow A (N - 1) = Zstar.one) by (apply Aone; [lia|exact Har]).
  assert (A2 : Zstar.pow A (r - 1) = Zstar.one).
  { replace (r - 1) with (Z.pred r) by lia. apply Zstar.fermat; exact Hr. }
  set (g := Z.gcd (N - 1) (r - 1)).
  assert (Ag : Zstar.pow A g = Zstar.one).
  { destruct (Z.gcd_bezout (N - 1) (r - 1) g eq_refl) as [u [v Huv]].
    rewrite <- Huv, Zstar.pow_add_r.
    rewrite (Z.mul_comm u), (Z.mul_comm v), !Zstar.pow_mul_r, A1, A2, !Zstar.pow_1_l.
    apply Zstar.mul_1_l. }
  assert (Hg0 : 0 <= g) by apply Z.gcd_nonneg.
  assert (HgN : (g | N - 1)) by apply Z.gcd_divide_l.
  assert (Hgr : (g | r - 1)) by apply Z.gcd_divide_r.
  apply product_divides; [exact Hqs|exact Hnd|].
  rewrite Forall_forall in *. intros q Hin.
  pose proof (Hqs q Hin) as Hq. pose proof (Hdiv q Hin) as HqN. pose proof (Hgcd q Hin) as Hqg.
  pose proof (Z.prime_ge_2 q Hq) as Hq2.
  apply Z.divide_trans with g; [|exact Hgr].
  destruct (Z.BoolSpec_divide q g) as [D|ND]; [exact D|exfalso].
  assert (Hco : Z.gcd g q = 1).
  { rewrite Z.gcd_comm. apply Z.coprime_prime_l; assumption. }
  destruct HqN as [m Hm].
  assert (Hm0 : 0 <= m) by nia.
  assert (Hgm : (g | m)).
  { apply Z.gauss with (m := q); [|exact Hco]. rewrite Z.mul_comm, <- Hm. exact HgN. }
  assert (Hquot : (N - 1) / q = m) by (rewrite Hm; apply Z.div_mul; lia).
  rewrite Hquot in Hqg.
  assert (Am : Zstar.pow A m = Zstar.one).
  { destruct Hgm as [k Hk]. rewrite Hk, Z.mul_comm, Zstar.pow_mul_r, Ag. apply Zstar.pow_1_l. }
  assert (Amz : a ^ m mod r = 1).
  { rewrite <- ApowZ by exact Hm0. rewrite Am, Zstar.to_Zmod_1, Zmod.to_Z_1_pos; lia. }
  assert (Hrd : (r | a ^ m mod N - 1)).
  { apply Z.mod_divide; [lia|].
    rewrite <- Zminus_mod_idemp_l, (Z.mod_mod_divide _ N r HrN), Amz.
    reflexivity. }
  assert (Hr1 : (r | 1)).
  { rewrite <- Hqg. apply Z.gcd_greatest; assumption. }
  apply Z.divide_1_r_nonneg in Hr1; lia.
Qed.

Theorem pocklington : N < product qs * product qs -> Z.prime N.
Proof.
  intros HF.
  destruct (prime_dec N) as [Hp|Hnp]; [apply prime_alt; exact Hp|exfalso].
  destruct (small_prime_divisor N HN) as [r [Hr [HrN Hsq]]].
  { intro Hp. apply Hnp. apply prime_alt. exact Hp. }
  pose proof (Z.prime_ge_2 r Hr).
  pose proof (pock_divisor r Hr HrN) as HFr.
  apply Z.divide_pos_le in HFr; [|lia].
  assert (0 < product qs).
  { clear - Hqs. induction qs as [|q l IH]; simpl; [lia|].
    inversion Hqs; subst. pose proof (Z.prime_ge_2 q ltac:(assumption)).
    specialize (IH ltac:(assumption)). nia. }
  nia.
Qed.
End Pocklington.

Lemma nodupb_sound l : nodupb l = true -> NoDup l.
Proof.
  induction l as [|x r IH]; simpl; intros H; [constructor|].
  apply andb_prop in H. destruct H as [H1 H2]. constructor; [|auto].
  intro Hin. apply negb_true_iff in H1.
  assert (existsb (Z.eqb x) r = true); [|congruence].
  apply existsb_exists. exists x. split; [exact Hin|apply Z.eqb_refl].
Qed.

Lemma pock_check_sound N a qs :
  pock_check N a qs = true -> Forall Z.prime qs -> NoDup qs -> Z.prime N.
Proof.
  unfold pock_check. intros H Hqs Hnd.
  repeat (apply andb_prop in H; destruct H as [H ?]).
  apply Z.ltb_lt in H. 
  match goal with
  | H : (Fast.pow_mod _ _ _ =? 1) = true |- _ =>
    apply Z.eqb_eq in H; rewrite FastFacts.pow_mod_spec in H by lia
  end.
  match goal with H : (N <? _) = true |- _ => apply Z.ltb_lt in H end.
  match goal with H : forallb _ _ = true |- _ => rewrite forallb_forall in H; rename H into Hall end.
  apply (pocklington N a qs); auto.
  - apply Forall_forall. intros q Hin. specialize (Hall q Hin).
    apply andb_prop in Hall. destruct Hall as [Hm _]. apply Z.eqb_eq in Hm.
    rewrite Forall_forall in Hqs. pose proof (Z.prime_ge_2 q (Hqs q Hin)).
    apply Z.mod_divide; [lia|exact Hm].
  - apply Forall_forall. intros q Hin. specialize (Hall q Hin).
    apply andb_prop in Hall. destruct Hall as [_ Hg]. apply Z.eqb_eq in Hg.
    rewrite FastFacts.pow_mod_spec in Hg by lia. exact Hg.
Qed.

Lemma check_chain_sound cs : forall known l,
  check_chain known cs = Some l -> Forall Z.prime known -> Forall Z.prime l.
Proof.
  induction cs as [|c cs IH]; simpl; intros known l H Hk.
  - inversion H; subst; exact Hk.
  - destruct c as [N|N a qs].
    + destruct (trial_prime N) eqn:E; [|discriminate].
      apply (IH _ _ H). constructor; [apply trial_prime_sound; exact E|exact Hk].
    + destruct (pock_check N a qs && forallb (fun q => existsb (Z.eqb q) known) qs && nodupb qs) eqn:E; [|discriminate].
      apply andb_prop in E. destruct E as [E E3]. apply andb_prop in E. destruct E as [E1 E2].
      apply (IH _ _ H). constructor; [|exact Hk].
      apply (pock_check_sound N a qs E1); [|apply nodupb_sound; exact E3].
      apply Forall_forall. intros q Hin. rewrite forallb_forall in E2. specialize (E2 q Hin).
      apply existsb_exists in E2. destruct E2 as [q' [Hin' Heq]]. apply Z.eqb_eq in Heq. subst q'.
      rewrite Forall_forall in Hk. exact (Hk q Hin').
Qed.


Lemma chain_proves_sound cs Ns : chain_proves cs Ns = true -> Forall Z.prime Ns.
Proof.
  unfold chain_proves. destruct (check_chain [] cs) as [l|] eqn:E; [|discriminate].
  intros H. rewrite forallb_forall in H. apply Forall_forall. intros N HN.
  specialize (H N HN). apply existsb_exists in H. destruct H as [x [Hin Hx]].
  apply Z.eqb_eq in Hx. subst x.
  pose proof (check_chain_sound _ _ _ E (Forall_nil _)) as HF.
  rewrite Forall_forall in HF. auto.
Qed.

Lemma secp256k1_primes : Z.prime Secp256k1.P /\ Z.prime Secp256k1.n.
Proof.
  assert (H : chain_proves secp256k1_chain [Secp256k1.P; Secp256k1.n] = true)
    by (vm_cast_no_check (eq_refl true)).
  apply chain_proves_sound in H.
  inversion H as [|? ? H1 H']; subst. inversion H' as [|? ? H2 ?]; subst.
  split; assumption.
Qed.

Lemma prime_P : Z.prime Secp256k1.P.
Proof. exact (proj1 secp256k1_primes). Qed.

Lemma prime_n : Z.prime Secp256k1.n.
Proof. exact (proj2 secp256k1_primes). Qed.

End PrimalityFacts.

(** * Hexadecimal strings: facts *)

Module HexFacts.
Local Open Scope string_scope.
Local Open Scope Z_scope.

Lemma digit_cases (d : Z) :
  0 <= d < 16 ->
  d = 0 \/ d = 1 \/ d = 2 \/ d = 3 \/ d = 4 \/ d = 5 \/ d = 6 \/ d = 7 \/
  d = 8 \/ d = 9 \/ d = 10 \/ d = 11 \/ d = 12 \/ d = 13 \/ d = 14 \/ d = 15.
Proof. lia. Qed.

Lemma digit_value_digit_of (d : Z) :
  0 <= d < 16 -> Hex.digit_value (Hex.digit_of d) = Some d.
Proof.
  intros H. apply digit_cases in H.
  repeat (destruct H as [H|H]; [subst d; reflexivity|]). subst d; reflexivity.
Qed.

Lemma is_hex_digit_of (d : Z) : 0 <= d < 16 -> Hex.is_hex_digit (Hex.digit_of d) = true.
Proof. intros H. unfold Hex.is_hex_digit. rewrite digit_value_digit_of; auto. Qed.

Lemma digit_value_range (c : ascii) (d : Z) : Hex.digit_value c = Some d -> 0 <= d < 16.
Proof.
  unfold Hex.digit_value. intros H.
  repeat match type of H with
         | (if ?c then _ else _) = _ => destruct c eqn:?
         end; inversion H; subst; lia.
Qed.

Lemma length_append (s t : string) :
  String.length (s ++ t) = (String.length s + String.length t)%nat.
Proof. induction s as [|c s IH]; simpl; auto. Qed.

Lemma append_assoc (s t u : string) : (s ++ t) ++ u = s ++ (t ++ u).
Proof. induction s as [|c s IH]; simpl; auto. now rewrite IH. Qed.

Lemma length_of_Z (n : nat) (z : Z) : String.length (Hex.of_Z n z) = n.
Proof.
  revert z. induction n as [|n IH]; intros z; simpl; auto.
  rewrite length_append, IH. simpl. lia.
Qed.

Lemma all_hex_append (s t : string) :
  Hex.all_hex (s ++ t) = Hex.all_hex s && Hex.all_hex t.
Proof. induction s as [|c s IH]; simpl; auto. rewrite IH. apply andb_assoc. Qed.

Lemma all_hex_of_Z (n : nat) (z : Z) : Hex.all_hex (Hex.of_Z n z) = true.
Proof.
  revert z. induction n as [|n IH]; intros z; simpl; auto.
  rewrite all_hex_append, IH. simpl.
  rewrite is_hex_digit_of; auto. apply Z.mod_pos_bound. lia.
Qed.

Lemma to_Z_acc_append (s t : string) (a : Z) :
  Hex.to_Z_acc a (s ++ t) =
  match Hex.to_Z_acc a s with
  | Some v => Hex.to_Z_acc v t
  | None => None
  end.
Proof.
  revert a. induction s as [|c s IH]; intros a; simpl; auto.
  destruct (Hex.digit_value c); auto.
Qed.

Lemma to_Z_acc_of_Z (n : nat) (z a : Z) :
  0 <= z ->
  Hex.to_Z_acc a (Hex.of_Z n z) = Some (a * 16 ^ Z.of_nat n + z mod 16 ^ Z.of_nat n).
Proof.
  revert z a. induction n as [|n IH]; intros z a Hz.
  - simpl. rewrite Z.mod_1_r. f_equal. lia.
  - cbn [Hex.of_Z]. rewrite to_Z_acc_append.
    rewrite IH by (apply Z.div_pos; lia).
    cbn [Hex.to_Z_acc]. rewrite digit_value_digit_of by (apply Z.mod_pos_bound; lia).
    cbn [Hex.to_Z_acc]. f_equal.
    rewrite Nat2Z.inj_succ, Z.pow_succ_r by lia.
    rewrite (Z.rem_mul_r z 16 (16 ^ Z.of_nat n)) by lia.
    ring.
Qed.

Lemma to_Z_of_Z (n : nat) (z : Z) :
  0 <= z < 16 ^ Z.of_nat n -> Hex.to_Z (Hex.of_Z n z) = Some z.
Proof.
  intros H. unfold Hex.to_Z. rewrite to_Z_acc_of_Z by lia.
  rewrite Z.mod_small by lia. f_equal.
Qed.

Lemma slice_append (s t : string) : Hex.slice (String.length s) (s ++ t) = t.
Proof. induction s as [|c s IH]; simpl; auto. Qed.

Lemma substring_0_append (s t : string) :
  String.substring 0 (String.length s) (s ++ t) = s.
Proof. induction s as [|c s IH]; simpl; [destruct t; reflexivity|]. now rewrite IH. Qed.

Lemma substring_skip_append (s t : string) (m : nat) :
  String.substring (String.length s) m (s ++ t) = String.substring 0 m t.
Proof. induction s as [|c s IH]; simpl; auto. Qed.

Lemma substring_0_all (s : string) : String.substring 0 (String.length s) s = s.
Proof. induction s as [|c s IH]; simpl; auto. now rewrite IH. Qed.

Lemma prefix_append (s t : string) : String.prefix s (s ++ t) = true.
Proof.
  induction s as [|c s IH]; simpl; [destruct t; reflexivity|].
  destruct (ascii_dec c c); [exact IH|congruence].
Qed.

(** Bytes and their two digits. *)
Lemma Z_of_byte_of_Z (v : Z) : 0 <= v < 256 -> Hex.Z_of_byte (Hex.byte_of_Z v) = v.
Proof.
  intros H. unfold Hex.Z_of_byte, Hex.byte_of_Z.
  rewrite Z.mod_small by lia.
  destruct (Byte.of_N (Z.to_N v)) as [bt|] eqn:E.
  - apply Byte.to_of_N in E. rewrite E. lia.
  - exfalso. apply Byte.of_N_None_iff in E. lia.
Qed.

Lemma to_bytes_of_digits (h l : Z) (r : string) (bs : list byte) :
  0 <= h < 16 -> 0 <= l < 16 -> Hex.to_bytes r = Some bs ->
  Hex.to_bytes (String (Hex.digit_of h) (String (Hex.digit_of l) r))
  = Some (Hex.byte_of_Z (16 * h + l) :: bs).
Proof.
  intros Hh Hl Hr. cbn [Hex.to_bytes].
  rewrite !digit_value_digit_of, Hr by assumption. reflexivity.
Qed.

Lemma of_bytes_digits (h l : Z) (bs : list byte) :
  0 <= h < 16 -> 0 <= l < 16 ->
  Hex.of_bytes (Hex.byte_of_Z (16 * h + l) :: bs)
  = String (Hex.digit_of h) (String (Hex.digit_of l) (Hex.of_bytes bs)).
Proof.
  intros Hh Hl. cbn [Hex.of_bytes]. rewrite Z_of_byte_of_Z by lia.
  replace ((16 * h + l) / 16) with h by (apply Z.div_unique with l; lia).
  replace ((16 * h + l) mod 16) with l by (apply Z.mod_unique with h; lia).
  reflexivity.
Qed.

Lemma lower_hex_append (s t : string) : Hex.lower_hex s -> Hex.lower_hex t -> Hex.lower_hex (s ++ t).
Proof. induction 1; simpl; auto. intros. constructor; auto. Qed.

Lemma lower_hex_of_Z (n : nat) (z : Z) : Hex.lower_hex (Hex.of_Z n z).
Proof.
  revert z. induction n as [|n IH]; intros z; simpl; [constructor|].
  apply lower_hex_append; auto. constructor; [|constructor].
  apply Z.mod_pos_bound. lia.
Qed.

Lemma bytes_round_trip (s : string) :
  Hex.lower_hex s -> Nat.even (String.length s) = true ->
  exists bs, Hex.to_bytes s = Some bs /\ Hex.of_bytes bs = s
             /\ length bs = Nat.div2 (String.length s).
Proof.
  intros H. remember (String.length s) as len eqn:L.
  revert s H L. induction len as [len IH] using (well_founded_induction lt_wf).
  intros s H L Hev. destruct H as [|h r Hh Hr].
  - exists []. subst. repeat split.
  - destruct Hr as [|l r Hl Hr].
    + subst. discriminate.
    + simpl in L. subst len.
      destruct (IH (String.length r) ltac:(lia) r Hr eq_refl Hev) as [bs [E1 [E2 E3]]].
      exists (Hex.byte_of_Z (16 * h + l) :: bs). repeat split.
      * apply to_bytes_of_digits; auto.
      * rewrite of_bytes_digits by auto. now rewrite E2.
      * simpl. now rewrite E3.
Qed.

End HexFacts.

(** * Deciding membership of the curve *)

Module CurveFacts.

Lemma on_curveb_spec (p : Z) (b : Zmod p) (Q : Curve.point p) :
  Curve.on_curveb b Q = true <-> Curve.on_curve b Q.
Proof.
  destruct Q as [|x y]; cbn [Curve.on_curveb Curve.on_curve]; [tauto|].
  destruct (Zmod.eqb_spec (Zmod.mul y y) (Zmod.add (Zmod.mul (Zmod.mul x x) x) b));
    split; intros; congruence.
Qed.

End CurveFacts.

(** * secp256k1: the field, the curve and the generator *)

Module SecpFacts.
Import Secp256k1.
Local Open Scope Z_scope.

Lemma P_big : 2 ^ 128 < P.
Proof. reflexivity. Qed.

Lemma P_pos : 0 < P.
Proof. reflexivity. Qed.

Lemma P_mod_4 : P mod 4 = 3.
Proof. reflexivity. Qed.

Lemma n_lt_P : n < P.
Proof. reflexivity. Qed.

Lemma b_nz : b <> Zmod.zero.
Proof. intro H. apply (f_equal Zmod.to_Z) in H. vm_compute in H. discriminate. Qed.

Lemma on_curveb_iff (Q : point) : Curve.on_curveb b Q = true <-> Curve.on_curve b Q.
Proof. apply CurveFacts.on_curveb_spec. Qed.

Lemma G_on_curve : Curve.on_curve b G.
Proof. apply on_curveb_iff. vm_compute. reflexivity. Qed.

Lemma G_finite : G <> Curve.Inf.
Proof. discriminate. Qed.

(** Scalar multiples of the generator, computed on machine words. *)
Lemma embed_G : Fast.embed P Fast.G = G.
Proof.
  cbn [Fast.embed Fast.G]. unfold G, fe. f_equal; f_equal; vm_compute; reflexivity.
Qed.

Lemma mul_G_fast (k : positive) : Curve.mul (Zpos k) G = Fast.embed P (Fast.mul_G k).
Proof.
  unfold Fast.mul_G. cbn [Curve.mul].
  rewrite (FastFacts.mul_pos_ok P PrimalityFacts.prime_P Fast.P).
  - rewrite embed_G. reflexivity.
  - vm_compute. reflexivity.
  - vm_compute. reflexivity.
Qed.

(** The generator has order [n]. *)
Lemma n_G : Curve.mul n G = Curve.Inf.
Proof.
  change n with (Zpos Fast.n). rewrite mul_G_fast.
  assert (H : Fast.mul_G Fast.n = None) by (vm_cast_no_check (eq_refl (@None (bigZ * bigZ)))).
  rewrite H. reflexivity.
Qed.

End SecpFacts.

(** * The group law of a short Weierstrass curve

    For a prime [p] large enough that the integer coefficients arising in
    the algebra stay nonzero, and [b <> 0] (the curve is not singular),
    the points of [y^2 = x^3 + b] form an abelian group under [Curve.add].
    The polynomial identities are found by [nsatz]; inverses enter as
    witnesses [d * i = 1], which keeps every goal polynomial. *)

Module GroupLaw.
Import Curve.

Section Laws.
Variable p : Z.
Hypothesis prime_p : Z.prime p.
Hypothesis big_p : 2 ^ 128 < p.
Variable b : Zmod p.
Hypothesis b_nz : b <> Zmod.zero.

Local Open Scope Zmod_scope.
Local Existing Instance Integral_domain_Zmod.

Lemma small_nz (c : Z) : (c <> 0 /\ - 2 ^ 128 < c < 2 ^ 128)%Z -> Zmod.of_Z p c <> 0.
Proof.
  intros [Hc Hr]. apply Zmod.of_Z_nz. intro E.
  apply Z.mod_divide in E; [|lia]. destruct E as [k E].
  assert (k = 0 \/ k <= -1 \/ 1 <= k)%Z as [K|[K|K]] by lia; nia.
Qed.

Lemma IPR_of_Z (c : positive) : IPR (R:=Zmod p) c = Zmod.of_Z p (Zpos c).
Proof.
  assert (E2 : R2 (R:=Zmod p) = Zmod.of_Z p 2).
  { change (Zmod.of_Z p 2) with (Zmod.of_Z p (1 + 1)).
    rewrite Zmod.of_Z_add, Zmod.of_Z_1. reflexivity. }
  induction c as [c IH|c IH|].
  - rewrite Pos2Z.inj_xI, Zmod.of_Z_add, Zmod.of_Z_mul, <- IH, <- E2, Zmod.of_Z_1, Zmod.add_comm.
    destruct c; try reflexivity. cbn. now rewrite Zmod.mul_1_r.
  - rewrite Pos2Z.inj_xO, Zmod.of_Z_mul, <- IH, <- E2.
    destruct c; try reflexivity. cbn. now rewrite Zmod.mul_1_r.
  - symmetry; apply Zmod.of_Z_1.
Qed.

Lemma IZR1_of_Z (c : Z) : IZR1 (R:=Zmod p) c = Zmod.of_Z p c.
Proof.
  destruct c as [|q|q]; cbn [IZR1].
  - symmetry. apply Zmod.of_Z_0.
  - apply IPR_of_Z.
  - rewrite IPR_of_Z. change (Z.neg q) with (- Z.pos q)%Z.
    rewrite Zmod.of_Z_opp. reflexivity.
Qed.

(** [nsatz] may leave the side condition that an integer constant is not
    zero in the field. *)
Ltac coefficient_nz :=
  cbv beta iota delta [interpret3 Ring_polynom.PEeval];
  rewrite IZR1_of_Z; apply small_nz; split; [discriminate | split; reflexivity].

Ltac field_vars acc :=
  match reverse goal with
  | x : Zmod p |- _ =>
    lazymatch acc with
    | context [x] => fail
    | _ => field_vars (@cons (Zmod p) x acc)
    end
  | _ => acc
  end.

(** Variables ordered from the most recently introduced: every defined
    coordinate is eliminated before the ones it is defined from. *)
Ltac poly :=
  let vs := field_vars (@nil (Zmod p)) in
  nsatz with radicalmax:=6%N strategy:=1%Z parameters:=(@nil (Zmod p)) variables:=vs;
  try coefficient_nz.

Ltac poly0 := nsatz; try coefficient_nz.

Lemma one_nz : (1 : Zmod p) <> 0.
Proof. rewrite <- Zmod.of_Z_1. apply small_nz. split; [discriminate | split; reflexivity]. Qed.

Lemma inv_witness (d : Zmod p) : d <> 0 -> d * Zmod.inv d = 1.
Proof. intros. apply Zmod.mul_inv_same_r_prime; auto. Qed.

Lemma witness_nz (d i : Zmod p) : d * i = 1 -> d <> 0.
Proof. intros H E. apply one_nz. rewrite <- H, E. poly0. Qed.

Lemma same_x_cases x1 y1 x2 y2 :
  on_curve b (Aff x1 y1) -> on_curve b (Aff x2 y2) ->
  x1 = x2 -> y1 <> - y2 -> y1 = y2 /\ y1 + y1 <> 0.
Proof.
  simpl. intros H1 H2 E N.
  assert (A : (y1 - y2) * (y1 + y2) = 0) by poly0.
  apply Zmod.mul_0_iff_prime in A; auto.
  destruct A as [A|A].
  - assert (y1 = y2) by poly0. split; auto. subst y2.
    intro B. apply N. poly0.
  - exfalso. apply N. poly0.
Qed.

Lemma add_graph P Q : on_curve b P -> on_curve b Q -> add_rel P Q (add P Q) (kind P Q).
Proof.
  destruct P as [|x1 y1], Q as [|x2 y2]; intros H1 H2; try constructor.
  unfold add, kind.
  destruct (Zmod.eqb_spec x1 x2) as [E|N].
  - destruct (Zmod.eqb_spec y1 (- y2)) as [E'|N'].
    + apply AddOpp; auto. rewrite E'. poly0.
    + destruct (same_x_cases _ _ _ _ H1 H2 E N') as [Ey Hd].
      eapply AddDbl with (i := Zmod.inv (y1 + y1)); try reflexivity; auto.
      apply inv_witness; auto.
  - eapply AddChord with (i := Zmod.inv (x2 - x1)); try reflexivity.
    apply inv_witness. intro A. apply N. poly0.
Qed.

Lemma add_rel_on_curve P Q R k :
  on_curve b P -> on_curve b Q -> add_rel P Q R k -> on_curve b R.
Proof.
  intros HP HQ H. destruct H; simpl in *; auto.
  - subst x2 y2. poly0.
  - poly0.
Qed.

Lemma add_on_curve P Q : on_curve b P -> on_curve b Q -> on_curve b (add P Q).
Proof. intros HP HQ. exact (add_rel_on_curve P Q _ _ HP HQ (add_graph P Q HP HQ)). Qed.

Lemma neg_on_curve P : on_curve b P -> on_curve b (neg P).
Proof. destruct P as [|x y]; simpl; auto. intros H. poly0. Qed.

Lemma add_Inf_l (P : point p) : add Inf P = P.
Proof. reflexivity. Qed.

Lemma add_Inf_r (P : point p) : add P Inf = P.
Proof. destruct P; reflexivity. Qed.

Lemma add_neg_r (P : point p) : add P (neg P) = Inf.
Proof.
  destruct P as [|x y]; simpl; auto.
  rewrite Zmod.eqb_refl.
  destruct (Zmod.eqb_spec y (- - y)) as [E|N]; auto.
  exfalso. apply N. poly0.
Qed.

Lemma kind_sym (P Q : point p) : kind P Q = kind Q P.
Proof.
  destruct P as [|x1 y1], Q as [|x2 y2]; simpl; auto.
  destruct (Zmod.eqb_spec x1 x2) as [E|N], (Zmod.eqb_spec x2 x1) as [E'|N']; try congruence.
  destruct (Zmod.eqb_spec y1 (- y2)) as [A|A], (Zmod.eqb_spec y2 (- y1)) as [B|B]; auto; exfalso.
  - apply B. rewrite A. poly0.
  - apply A. rewrite B. poly0.
Qed.

(** Hypothesis clean-up after inverting [add_rel]. *)
Ltac tidy := repeat (match goal with
 | H : Aff _ _ = Aff _ _ |- _ => injection H as ? ?
 | H : Inf = Aff _ _ |- _ => discriminate H
 | H : Aff _ _ = Inf |- _ => discriminate H
 | H : Inf = Inf |- _ => clear H
 | H : True |- _ => clear H
 | H : ?x = ?x |- _ => clear H
 | H : ?x = _ |- _ => is_var x; lazymatch type of x with point _ => subst x end
 | H : _ = ?x |- _ => is_var x; lazymatch type of x with point _ => subst x end
 | H : ?x = ?y |- _ => is_var x; is_var y; lazymatch type of x with Zmod _ => destruct H end
 end); simpl on_curve in *.

Ltac leaf :=
  lazymatch goal with
  | |- Aff _ _ = Aff _ _ =>
    try (match goal with H : b * ?ib = 1 |- _ => clear H; clear ib end); f_equal; poly
  | |- Inf = Inf => reflexivity
  | |- _ => exfalso; apply one_nz; poly
  end.

Lemma add_comm P Q : on_curve b P -> on_curve b Q -> add P Q = add Q P.
Proof.
  intros HP HQ.
  pose proof (add_graph P Q HP HQ) as H1. pose proof (add_graph Q P HQ HP) as H2.
  rewrite (kind_sym Q P) in H2.
  revert H1 H2. generalize (add P Q) (add Q P) (kind P Q).
  intros R1 R2 k H1 H2.
  inversion H1; clear H1; subst k; inversion H2; clear H2; tidy; try reflexivity; leaf.
Qed.

(** Associativity on the graph of [add], for the configurations that come
    first in the order of branches; the others are their mirror images. *)
Lemma add_rel_assoc_ordered P Q R PQ QR L Rr k1 k2 k3 k4 :
  on_curve b P -> on_curve b Q -> on_curve b R ->
  add_rel P Q PQ k1 -> add_rel Q R QR k2 ->
  add_rel PQ R L k3 -> add_rel P QR Rr k4 ->
  (k2 < k1 \/ (k1 = k2 /\ k4 <= k3))%nat ->
  L = Rr.
Proof.
  intros HP HQ HR H1 H2 H3 H4 Hord.
  pose proof (inv_witness b b_nz) as Hib. set (ib := Zmod.inv b) in Hib. clearbody ib.
  inversion H1; clear H1; inversion H2; clear H2; tidy; try (exfalso; lia).
  all: inversion H3; clear H3; inversion H4; clear H4; tidy; try (exfalso; lia).
  all: try reflexivity.
  all: clear Hord.
  all: leaf.
Qed.

Theorem add_assoc P Q R :
  on_curve b P -> on_curve b Q -> on_curve b R ->
  add (add P Q) R = add P (add Q R).
Proof.
  intros HP HQ HR.
  pose proof (add_on_curve P Q HP HQ) as HPQ.
  pose proof (add_on_curve Q R HQ HR) as HQR.
  pose proof (add_graph P Q HP HQ) as H1.
  pose proof (add_graph Q R HQ HR) as H2.
  pose proof (add_graph (add P Q) R HPQ HR) as H3.
  pose proof (add_graph P (add Q R) HP HQR) as H4.
  assert (Hcases : ((kind Q R < kind P Q \/ (kind P Q = kind Q R /\
                     kind P (add Q R) <= kind (add P Q) R))
                   \/ (kind P Q < kind Q R \/ (kind Q R = kind P Q /\
                     kind (add P Q) R <= kind P (add Q R))))%nat) by lia.
  destruct Hcases as [Hord|Hord].
  - exact (add_rel_assoc_ordered _ _ _ _ _ _ _ _ _ _ _ HP HQ HR H1 H2 H3 H4 Hord).
  - pose proof (add_graph R Q HR HQ) as M1.
    pose proof (add_graph Q P HQ HP) as M2.
    pose proof (add_graph (add R Q) P (add_on_curve R Q HR HQ) HP) as M3.
    pose proof (add_graph R (add Q P) HR (add_on_curve Q P HQ HP)) as M4.
    assert (Hord' : (kind Q P < kind R Q \/ (kind R Q = kind Q P /\
                     kind R (add Q P) <= kind (add R Q) P))%nat).
    { rewrite (kind_sym R Q), (kind_sym Q P), (add_comm R Q HR HQ), (add_comm Q P HQ HP).
      rewrite (kind_sym (add Q R) P), (kind_sym R (add P Q)). exact Hord. }
    pose proof (add_rel_assoc_ordered _ _ _ _ _ _ _ _ _ _ _ HR HQ HP M1 M2 M3 M4 Hord') as E.
    rewrite (add_comm (add P Q) R HPQ HR), (add_comm P Q HP HQ), <- E.
    rewrite (add_comm (add R Q) P (add_on_curve R Q HR HQ) HP), (add_comm R Q HR HQ).
    reflexivity.
Qed.


(** ** Scalar multiplication *)

Lemma neg_add P Q :
  on_curve b P -> on_curve b Q -> neg (add P Q) = add (neg P) (neg Q).
Proof.
  intros HP HQ.
  pose proof (add_graph P Q HP HQ) as H1.
  pose proof (add_graph (neg P) (neg Q) (neg_on_curve P HP) (neg_on_curve Q HQ)) as H2.
  assert (K : kind (neg P) (neg Q) = kind P Q).
  { destruct P as [|x1 y1], Q as [|x2 y2]; cbn [kind neg]; auto.
    destruct (Zmod.eqb_spec x1 x2); try reflexivity.
    destruct (Zmod.eqb_spec (- y1) (- - y2)) as [A|A], (Zmod.eqb_spec y1 (- y2)) as [B|B];
      try reflexivity; exfalso.
    - apply B. poly0.
    - apply A. rewrite B. reflexivity. }
  rewrite K in H2. revert H1 H2.
  generalize (add P Q) (add (neg P) (neg Q)) (kind P Q). intros R1 R2 k H1 H2.
  destruct P as [|x1 y1], Q as [|x2 y2]; cbn [neg] in *;
    inversion H1; clear H1; subst k; inversion H2; clear H2; tidy; try reflexivity;
    cbn [neg]; f_equal; poly.
Qed.

Lemma neg_neg (P : point p) : neg (neg P) = P.
Proof. destruct P as [|x y]; cbn [neg]; auto. f_equal. poly0. Qed.

Lemma mul_pos_on_curve k P : on_curve b P -> on_curve b (mul_pos k P).
Proof.
  intros HP. induction k as [k IH|k IH|]; simpl; auto using add_on_curve.
Qed.

Lemma mul_on_curve k P : on_curve b P -> on_curve b (mul k P).
Proof. destruct k; simpl; auto using mul_pos_on_curve. Qed.

Lemma mul_pos_succ k P :
  on_curve b P -> mul_pos (Pos.succ k) P = add P (mul_pos k P).
Proof.
  intros HP. induction k as [k IH|k IH|]; simpl.
  - rewrite IH.
    pose proof (mul_pos_on_curve k P HP) as HQ.
    set (Q := mul_pos k P) in *.
    pose proof (add_on_curve P Q HP HQ) as HPQ.
    pose proof (add_on_curve Q Q HQ HQ) as HQQ.
    rewrite (add_assoc P Q (add P Q) HP HQ HPQ).
    f_equal.
    rewrite <- (add_assoc Q P Q HQ HP HQ).
    rewrite (add_comm Q P HQ HP).
    rewrite (add_assoc P Q Q HP HQ HQ). reflexivity.
  - reflexivity.
  - reflexivity.
Qed.

Lemma mul_pos_add j k P :
  on_curve b P -> mul_pos (j + k) P = add (mul_pos j P) (mul_pos k P).
Proof.
  intros HP. induction j as [|j IH] using Pos.peano_ind.
  - rewrite Pos.add_1_l. apply mul_pos_succ; auto.
  - rewrite Pos.add_succ_l, !mul_pos_succ, IH by auto.
    symmetry. apply add_assoc; auto using mul_pos_on_curve.
Qed.

Lemma mul_pos_Inf k : mul_pos k (@Inf p) = Inf.
Proof. induction k as [k IH|k IH|]; simpl; rewrite ?IH; reflexivity. Qed.

Lemma mul_pos_mul j k P :
  on_curve b P -> mul_pos (j * k) P = mul_pos j (mul_pos k P).
Proof.
  intros HP. induction j as [|j IH] using Pos.peano_ind.
  - rewrite Pos.mul_1_l. reflexivity.
  - rewrite Pos.mul_succ_l, mul_pos_add, IH by auto.
    rewrite (mul_pos_succ j (mul_pos k P)) by auto using mul_pos_on_curve.
    reflexivity.
Qed.

Lemma mul_add j k P :
  (0 <= j)%Z -> (0 <= k)%Z -> on_curve b P ->
  mul (j + k) P = add (mul j P) (mul k P).
Proof.
  intros Hj Hk HP. destruct j as [|j|j], k as [|k|k]; try lia; simpl.
  - reflexivity.
  - reflexivity.
  - symmetry. apply add_Inf_r.
  - apply mul_pos_add; auto.
Qed.

Lemma mul_mul j k P :
  (0 <= j)%Z -> (0 <= k)%Z -> on_curve b P -> mul (j * k) P = mul j (mul k P).
Proof.
  intros Hj Hk HP. destruct j as [|j|j], k as [|k|k]; try lia; simpl; auto.
  - symmetry. apply mul_pos_Inf.
  - apply mul_pos_mul; auto.
Qed.

Lemma mul_pos_neg k P : on_curve b P -> mul_pos k (neg P) = neg (mul_pos k P).
Proof.
  intros HP. induction k as [k IH|k IH|]; simpl; auto.
  - rewrite IH. pose proof (mul_pos_on_curve k P HP) as HQ.
    rewrite <- !neg_add; auto using add_on_curve.
  - rewrite IH. pose proof (mul_pos_on_curve k P HP) as HQ.
    rewrite <- neg_add; auto.
Qed.

Lemma mul_neg k P : on_curve b P -> mul k (neg P) = neg (mul k P).
Proof. intros HP. destruct k; simpl; auto using mul_pos_neg. Qed.

(** The Diffie-Hellman exchange: the two orders of multiplying agree. *)
Lemma mul_exchange j k P :
  (0 <= j)%Z -> (0 <= k)%Z -> on_curve b P -> mul j (mul k P) = mul k (mul j P).
Proof.
  intros Hj Hk HP. rewrite <- !mul_mul by auto. f_equal. apply Z.mul_comm.
Qed.

(** A point killed by a prime [n] has order exactly [n]. *)
Lemma mul_Inf k : mul k (@Inf p) = Inf.
Proof. destruct k; simpl; auto using mul_pos_Inf. Qed.

Lemma mul_order n P k :
  Z.prime n -> on_curve b P -> P <> Inf -> mul n P = Inf ->
  (0 < k < n)%Z -> mul k P <> Inf.
Proof.
  intros Hn HP HPnz HnP Hk E.
  pose proof (Z.prime_ge_2 n Hn) as Hn2.
  assert (Hco : Z.gcd k n = 1%Z).
  { rewrite Z.gcd_comm. apply Z.coprime_prime_small; auto. lia. }
  set (u := Z.invmod k n).
  assert (Hu : ((u * k) mod n = 1)%Z).
  { unfold u. rewrite Z.invmod_coprime by (auto; lia).
    try reflexivity; try (apply Z.mod_small; lia). }
  assert (Hu0 : (0 <= u)%Z).
  { unfold u, Z.invmod. apply Z.mod_pos_bound. lia. }
  set (q := ((u * k) / n)%Z).
  assert (Hdm : (u * k = q * n + 1)%Z).
  { unfold q. pose proof (Z.div_mod (u * k) n ltac:(lia)) as D. rewrite Hu in D. lia. }
  assert (Hq : (0 <= q)%Z) by (unfold q; apply Z.div_pos; nia).
  apply HPnz.
  assert (E1 : mul (u * k) P = Inf).
  { rewrite mul_mul by (auto; lia). rewrite E. apply mul_Inf. }
  rewrite Hdm in E1.
  rewrite mul_add in E1 by (auto; nia).
  rewrite mul_mul in E1 by (auto; lia).
  rewrite HnP, mul_Inf in E1.
  exact E1.
Qed.

(** Scalars act modulo the order. *)
Lemma mul_mod n P k :
  (0 < n)%Z -> on_curve b P -> mul n P = Inf -> (0 <= k)%Z ->
  mul (k mod n) P = mul k P.
Proof.
  intros Hn HP HnP Hk.
  rewrite (Z.div_mod k n) at 2 by lia.
  assert (0 <= k / n)%Z by (apply Z.div_pos; lia).
  assert (0 <= k mod n)%Z by (apply Z.mod_pos_bound; lia).
  rewrite mul_add by (auto; nia).
  rewrite (Z.mul_comm n), mul_mul by (auto; lia).
  rewrite HnP, mul_Inf. reflexivity.
Qed.

End Laws.
End GroupLaw.

(** * The ethers helpers on 32-byte values *)

Module EthersFacts.
Import HexFacts.
Local Open Scope string_scope.
Local Open Scope Z_scope.

Lemma Z_of_byte_range (b : byte) : 0 <= Hex.Z_of_byte b < 256.
Proof.
  unfold Hex.Z_of_byte. pose proof (Byte.to_N_bounded b) as H. lia.
Qed.

Lemma byte_of_Z_of_byte (b : byte) : Hex.byte_of_Z (Hex.Z_of_byte b) = b.
Proof.
  unfold Hex.byte_of_Z. pose proof (Z_of_byte_range b) as H.
  rewrite Z.mod_small by lia. unfold Hex.Z_of_byte.
  rewrite N2Z.id, Byte.of_to_N. reflexivity.
Qed.

Lemma byte_digits (b : byte) :
  0 <= Hex.Z_of_byte b / 16 < 16 /\ 0 <= Hex.Z_of_byte b mod 16 < 16.
Proof.
  pose proof (Z_of_byte_range b) as H. split.
  - split; [apply Z.div_pos; lia|apply Z.div_lt_upper_bound; lia].
  - apply Z.mod_pos_bound. lia.
Qed.

Lemma to_bytes_of_bytes (bs : list byte) : Hex.to_bytes (Hex.of_bytes bs) = Some bs.
Proof.
  induction bs as [|b bs IH]; [reflexivity|].
  cbn [Hex.of_bytes]. destruct (byte_digits b) as [Hh Hl].
  rewrite (to_bytes_of_digits _ _ _ bs Hh Hl IH).
  rewrite <- Z.div_mod by lia. rewrite byte_of_Z_of_byte. reflexivity.
Qed.

Lemma all_hex_of_bytes (bs : list byte) : Hex.all_hex (Hex.of_bytes bs) = true.
Proof.
  induction bs as [|b bs IH]; [reflexivity|].
  cbn [Hex.of_bytes Hex.all_hex]. destruct (byte_digits b) as [Hh Hl].
  rewrite !is_hex_digit_of, IH by assumption. reflexivity.
Qed.

Lemma length_of_bytes (bs : list byte) :
  String.length (Hex.of_bytes bs) = (2 * length bs)%nat.
Proof. induction bs as [|b bs IH]; simpl; lia. Qed.

Lemma to_Z_acc_of_bytes (bs : list byte) (a : Z) :
  0 <= a ->
  exists v, Hex.to_Z_acc a (Hex.of_bytes bs) = Some (a * 256 ^ Z.of_nat (length bs) + v)
            /\ 0 <= v < 256 ^ Z.of_nat (length bs).
Proof.
  revert a. induction bs as [|b bs IH]; intros a Ha.
  - exists 0. simpl. split; [f_equal; lia|lia].
  - cbn [Hex.of_bytes Hex.to_Z_acc]. destruct (byte_digits b) as [Hh Hl].
    rewrite !digit_value_digit_of by assumption.
    destruct (IH (16 * (16 * a + Hex.Z_of_byte b / 16) + Hex.Z_of_byte b mod 16)) as (v & Hv & Hr);
      [lia|].
    rewrite Hv.
    pose proof (Z_of_byte_range b) as Hb.
    pose proof (Z.div_mod (Hex.Z_of_byte b) 16 ltac:(lia)) as Hdm.
    cbn [length]. rewrite Nat2Z.inj_succ, Z.pow_succ_r by lia.
    set (m := 256 ^ Z.of_nat (length bs)) in *.
    exists (Hex.Z_of_byte b * m + v). split; [f_equal; nia|nia].
Qed.

Lemma to_Z_of_bytes (bs : list byte) :
  exists v, Hex.to_Z (Hex.of_bytes bs) = Some v /\ 0 <= v < 256 ^ Z.of_nat (length bs).
Proof.
  destruct (to_Z_acc_of_bytes bs 0 ltac:(lia)) as (v & Hv & Hr).
  exists v. split; [|exact Hr]. unfold Hex.to_Z. rewrite Hv. f_equal; lia.
Qed.

Lemma isHexString_0x (s : string) : Hex.all_hex s = true -> Ethers.isHexString ("0x" ++ s) = true.
Proof.
  intros H. unfold Ethers.isHexString, Hex.starts_with.
  rewrite prefix_append. change (Hex.slice 2 ("0x" ++ s)) with s. exact H.
Qed.

Lemma isHexString_hex32 (z : Z) : Ethers.isHexString (hex32 z) = true.
Proof. apply isHexString_0x, all_hex_of_Z. Qed.

Lemma length_hex32 (z : Z) : String.length (hex32 z) = 66%nat.
Proof. unfold hex32. rewrite length_append, length_of_Z. reflexivity. Qed.

Lemma slice_hex32 (z : Z) : Hex.slice 2 (hex32 z) = Hex.of_Z 64 z.
Proof. reflexivity. Qed.

(** A hexadecimal string with digits is a BigNumber string. *)
Lemma BigNumber_from_hex (s : string) (z : Z) :
  Hex.all_hex s = true -> Ethers.nonempty s = true -> Hex.to_Z s = Some z ->
  Ethers.BigNumber_from ("0x" ++ s) = Ok z.
Proof.
  intros Hh Hn Hz. unfold Ethers.BigNumber_from.
  change (Hex.starts_with "-" ("0x" ++ s)) with false. cbv iota.
  unfold Hex.starts_with at 1. rewrite prefix_append.
  change (Hex.slice 2 ("0x" ++ s)) with s.
  rewrite Hh, Hn, Hz. reflexivity.
Qed.

Lemma nonempty_of_Z (n : nat) (z : Z) : Ethers.nonempty (Hex.of_Z (S n) z) = true.
Proof.
  cbn [Hex.of_Z]. destruct (Hex.of_Z n (z / 16)); reflexivity.
Qed.

Lemma BigNumber_from_hex32 (z : Z) :
  0 <= z < 2 ^ 256 -> Ethers.BigNumber_from (hex32 z) = Ok z.
Proof.
  intros H. apply BigNumber_from_hex.
  - apply all_hex_of_Z.
  - apply nonempty_of_Z.
  - apply to_Z_of_Z. change (16 ^ Z.of_nat 64) with (2 ^ 256). exact H.
Qed.

(** The hexadecimal string of a digest of [k] bytes is a BigNumber string
    for a number below [256^k]. *)
Lemma BigNumber_from_hexlify (bs : list byte) :
  bs <> [] ->
  exists v, Ethers.BigNumber_from (Ethers.hexlify bs) = Ok v
            /\ 0 <= v < 256 ^ Z.of_nat (length bs).
Proof.
  intros Hne. destruct (to_Z_of_bytes bs) as (v & Hv & Hr).
  exists v. split; [|exact Hr]. apply BigNumber_from_hex.
  - apply all_hex_of_bytes.
  - destruct bs; [congruence|reflexivity].
  - exact Hv.
Qed.

(** Padding. *)
Lemma of_Z_zero (n : nat) : Hex.of_Z n 0 = Ethers.zeros n.
Proof.
  induction n as [|n IH]; [reflexivity|].
  cbn [Hex.of_Z]. change (0 / 16) with 0. rewrite IH.
  clear IH. induction n as [|n IH]; [reflexivity|].
  cbn [Ethers.zeros]. simpl. f_equal. exact IH.
Qed.

Lemma of_Z_split (m k : nat) (z : Z) :
  0 <= z ->
  Hex.of_Z (m + k) z = Hex.of_Z m (z / 16 ^ Z.of_nat k) ++ Hex.of_Z k z.
Proof.
  revert z. induction k as [|k IH]; intros z Hz.
  - rewrite Nat.add_0_r. cbn [Hex.of_Z]. change (16 ^ Z.of_nat 0) with 1.
    rewrite Z.div_1_r.
    generalize (Hex.of_Z m z). intros s. induction s; simpl; congruence.
  - rewrite Nat.add_succ_r. cbn [Hex.of_Z].
    rewrite IH by (apply Z.div_pos; lia).
    rewrite Z.div_div by lia.
    rewrite Nat2Z.inj_succ, Z.pow_succ_r by lia.
    rewrite append_assoc. reflexivity.
Qed.

Lemma of_Z_pad (m k : nat) (z : Z) :
  0 <= z < 16 ^ Z.of_nat k ->
  Ethers.zeros m ++ Hex.of_Z k z = Hex.of_Z (m + k) z.
Proof.
  intros H. rewrite of_Z_split by lia. rewrite Z.div_small by lia.
  rewrite of_Z_zero. reflexivity.
Qed.

Lemma digits_bound (z : Z) : 0 <= z -> z < 16 ^ Z.of_nat (Hex.digits z).
Proof.
  intros H. unfold Hex.digits. destruct (Z.eqb_spec z 0) as [->|Hz]; [reflexivity|].
  assert (Hp : 0 < z) by lia.
  pose proof (Z.log2_nonneg z) as Hl.
  pose proof (Z.div_pos (Z.log2 z) 4 Hl ltac:(lia)) as Hd.
  rewrite Z2Nat.id by lia.
  change 16 with (2 ^ 4). rewrite <- Z.pow_mul_r by lia.
  apply Z.log2_lt_pow2; [lia|].
  pose proof (Z.div_mod (Z.log2 z) 4 ltac:(lia)) as Hdm.
  pose proof (Z.mod_pos_bound (Z.log2 z) 4 ltac:(lia)). lia.
Qed.

Lemma digits_le (z : Z) (n : nat) :
  (0 < n)%nat -> 0 <= z < 16 ^ Z.of_nat n -> (Hex.digits z <= n)%nat.
Proof.
  intros Hn H. unfold Hex.digits. destruct (Z.eqb_spec z 0) as [->|Hz]; [lia|].
  assert (Hp : 0 < z) by lia.
  assert (Hl : Z.log2 z < 4 * Z.of_nat n).
  { apply Z.log2_lt_pow2; [lia|]. rewrite Z.pow_mul_r by lia. exact (proj2 H). }
  pose proof (Z.log2_nonneg z) as Hnn.
  assert (Z.log2 z / 4 < Z.of_nat n) by (apply Z.div_lt_upper_bound; lia).
  pose proof (Z.div_pos (Z.log2 z) 4 Hnn ltac:(lia)). lia.
Qed.

Lemma even_digits (d : nat) : (d <= 2 * Nat.div2 (S d) <= S d)%nat.
Proof.
  pose proof (Nat.div2_odd (S d)) as H.
  destruct (Nat.odd (S d)); cbn [Nat.b2n] in H; lia.
Qed.

(** [hexZeroPad(z.toHexString(), 32)] of a number below [2^256] is its
    32-byte hexadecimal string. *)
Lemma hexZeroPad_toHexString (z : Z) :
  0 <= z < 2 ^ 256 ->
  Ethers.hexZeroPad (Ethers.BigNumber_toHexString z) 32 = Ok (hex32 z).
Proof.
  intros H. unfold Ethers.BigNumber_toHexString.
  destruct (Z.ltb_spec z 0) as [Hn|_]; [lia|].
  set (k := (2 * Nat.div2 (S (Hex.digits z)))%nat).
  assert (Hd : (Hex.digits z <= 64)%nat).
  { apply digits_le; [lia|]. change (16 ^ Z.of_nat 64) with (2 ^ 256). exact H. }
  pose proof (even_digits (Hex.digits z)) as He. fold k in He.
  assert (Hk : (k <= 64)%nat).
  { destruct (Nat.eq_dec k 65) as [E|]; [|lia].
    exfalso. unfold k in E. lia. }
  assert (Hz : 0 <= z < 16 ^ Z.of_nat k).
  { split; [lia|]. eapply Z.lt_le_trans; [apply digits_bound; lia|].
    apply Z.pow_le_mono_r; lia. }
  unfold Ethers.hexZeroPad.
  rewrite isHexString_0x by apply all_hex_of_Z. cbv iota. cbn [negb].
  rewrite length_append, length_of_Z. cbn [String.length].
  destruct (Nat.ltb_spec (2 * 32 + 2) (2 + k)) as [Hlt|_]; [lia|].
  change (Hex.slice 2 ("0x" ++ Hex.of_Z k z)) with (Hex.of_Z k z).
  rewrite of_Z_pad by exact Hz.
  replace (2 * 32 + 2 - (2 + k) + k)%nat with 64%nat by lia. reflexivity.
Qed.

Lemma lxor_bound (a c : Z) :
  0 <= a < 2 ^ 256 -> 0 <= c < 2 ^ 256 -> 0 <= Z.lxor a c < 2 ^ 256.
Proof.
  intros Ha Hc.
  assert (Hnn : 0 <= Z.lxor a c) by (apply Z.lxor_nonneg; lia).
  split; [exact Hnn|].
  destruct (Z.eq_dec (Z.lxor a c) 0) as [->|Hx]; [reflexivity|].
  apply Z.log2_lt_pow2; [lia|].
  eapply Z.le_lt_trans; [apply Z.log2_lxor; lia|].
  apply Z.max_lub_lt.
  - destruct (Z.eq_dec a 0) as [->|]; [reflexivity|]. apply Z.log2_lt_pow2; lia.
  - destruct (Z.eq_dec c 0) as [->|]; [reflexivity|]. apply Z.log2_lt_pow2; lia.
Qed.

Lemma lxor_cancel (r s : Z) : Z.lxor (Z.lxor r s) s = r.
Proof. rewrite Z.lxor_assoc, Z.lxor_nilpotent, Z.lxor_0_r. reflexivity. Qed.

(** The core of both the encryption and the decryption: XOR of two
    BigNumber strings for values below [2^256], padded to 32 bytes. *)
Lemma xor_pad (a : Z) (other : string) (o : Z) :
  0 <= a < 2 ^ 256 -> Ethers.BigNumber_from other = Ok o -> 0 <= o < 2 ^ 256 ->
  (let* plaintext := Ethers.BigNumber_xor a other in
   Ethers.hexZeroPad (Ethers.BigNumber_toHexString plaintext) 32)
  = Ok (hex32 (Z.lxor a o)).
Proof.
  intros Ha Ho Hr. unfold Ethers.BigNumber_xor. rewrite Ho. cbn [bind].
  destruct (Z.ltb_spec a 0); [lia|]. destruct (Z.ltb_spec o 0); [lia|].
  cbn [orb bind]. apply hexZeroPad_toHexString, lxor_bound; assumption.
Qed.

Lemma decryptStage_value (ann : Announcement) (sharedSecret : string) (c s : Z) :
  Ethers.BigNumber_from (ciphertext ann) = Ok c -> 0 <= c < 2 ^ 256 ->
  Ethers.BigNumber_from sharedSecret = Ok s -> 0 <= s < 2 ^ 256 ->
  ScanPerformance.decryptStage ann sharedSecret = Ok (hex32 (Z.lxor c s)).
Proof.
  intros Hc Hcr Hs Hsr. unfold ScanPerformance.decryptStage. rewrite Hc. cbn [bind].
  apply xor_pad; assumption.
Qed.

Lemma encrypt_value (randomNumber sharedSecret : string) (r s : Z) :
  Ethers.BigNumber_from randomNumber = Ok r -> 0 <= r < 2 ^ 256 ->
  Ethers.BigNumber_from sharedSecret = Ok s -> 0 <= s < 2 ^ 256 ->
  Sender.encrypt randomNumber sharedSecret = Ok (hex32 (Z.lxor r s)).
Proof.
  intros Hc Hcr Hs Hsr. unfold Sender.encrypt. rewrite Hc. cbn [bind].
  apply xor_pad; assumption.
Qed.

End EthersFacts.

(** * Points of secp256k1 and their encodings *)

Module PointFacts.
Import Secp256k1 HexFacts.
Local Open Scope string_scope.
Local Open Scope Z_scope.

Lemma to_Z_bounds (x : F) : 0 <= Zmod.to_Z x < P.
Proof. apply Zmod.unsigned_pos_bound. reflexivity. Qed.

Lemma to_Z_bounds_256 (x : F) : 0 <= Zmod.to_Z x < 16 ^ Z.of_nat 64.
Proof.
  pose proof (to_Z_bounds x) as H.
  assert (P < 16 ^ Z.of_nat 64) by reflexivity. lia.
Qed.

Lemma fe_to_Z (x : F) : fe (Zmod.to_Z x) = x.
Proof. apply Zmod.of_Z_unsigned. Qed.

Lemma to_Z_pos (x : F) : x <> Zmod.zero -> 0 < Zmod.to_Z x < P.
Proof.
  intros H. pose proof (to_Z_bounds x). pose proof (Zmod.unsigned_nz x H). lia.
Qed.

(** Powers in the field, computed on machine words. *)
Lemma pow_fast (a e : Z) : 0 <= e -> Zmod.pow (fe a) e = fe (Fast.pow_mod a e P).
Proof.
  intros He. unfold fe. rewrite FastFacts.pow_mod_spec, Zmod.of_Z_mod.
  symmetry. apply Zmod.of_Z_pow. exact He.
Qed.

Lemma fe_neq (a c : Z) : (a mod P =? c mod P) = false -> fe a <> fe c.
Proof.
  intros H E. apply Zmod.of_Z_inj in E. apply Z.eqb_neq in H. contradiction.
Qed.

(** 7 is not a square of the field: no point of the curve has [x = 0]. *)
Lemma seven_not_square (y : F) : Zmod.mul y y <> b.
Proof.
  intros H.
  assert (Hy : y <> Zmod.zero).
  { intros ->. rewrite Zmod.mul_0_l in H. symmetry in H. exact (SecpFacts.b_nz H). }
  pose proof (Zmod.fermat_nz y Hy PrimalityFacts.prime_P) as Hf.
  assert (Hb : Zmod.pow b ((P - 1) / 2) = Zmod.one).
  { rewrite <- H, <- Zmod.pow_2_r, <- Zmod.pow_mul_r_nonneg by (vm_compute; discriminate).
    replace (2 * ((P - 1) / 2)) with (Z.pred P) by reflexivity. exact Hf. }
  unfold b in Hb. rewrite pow_fast in Hb by (vm_compute; discriminate).
  rewrite <- Zmod.of_Z_1 in Hb. revert Hb. apply fe_neq.
  vm_compute. reflexivity.
Qed.

(** -7 is not a cube of the field: no point of the curve has [y = 0]. *)
Lemma minus_seven_not_cube (x : F) : Zmod.add (Zmod.mul (Zmod.mul x x) x) b <> Zmod.zero.
Proof.
  intros H.
  assert (Hx : x <> Zmod.zero).
  { intros ->. rewrite !Zmod.mul_0_l, Zmod.add_0_l in H. exact (SecpFacts.b_nz H). }
  pose proof (Zmod.fermat_nz x Hx PrimalityFacts.prime_P) as Hf.
  apply Zmod.add_eq_0 in H.
  assert (Hc : Zmod.pow (Zmod.mul (Zmod.mul x x) x) ((P - 1) / 3) = Zmod.one).
  { replace (Zmod.mul (Zmod.mul x x) x) with (Zmod.pow x 3).
    - rewrite <- Zmod.pow_mul_r_nonneg by (vm_compute; discriminate).
      replace (3 * ((P - 1) / 3)) with (Z.pred P) by reflexivity. exact Hf.
    - change 3 with (Z.succ 2). rewrite Zmod.pow_succ_nonneg_r, Zmod.pow_2_r by lia.
      rewrite Zmod.mul_comm. reflexivity. }
  assert (Hb : Zmod.pow (fe (-7)) ((P - 1) / 3) = Zmod.one).
  { rewrite <- Hc. f_equal.
    apply (f_equal Zmod.opp) in H. rewrite Zmod.opp_opp in H.
    rewrite <- H. unfold b, fe. rewrite <- Zmod.of_Z_opp. reflexivity. }
  rewrite pow_fast in Hb by (vm_compute; discriminate).
  rewrite <- Zmod.of_Z_1 in Hb. revert Hb. apply fe_neq.
  vm_compute. reflexivity.
Qed.

Lemma x_nz (x y : F) : Curve.on_curve b (Curve.Aff x y) -> x <> Zmod.zero.
Proof.
  cbn [Curve.on_curve]. intros H ->.
  rewrite !Zmod.mul_0_l, Zmod.add_0_l in H. exact (seven_not_square y H).
Qed.

Lemma y_nz (x y : F) : Curve.on_curve b (Curve.Aff x y) -> y <> Zmod.zero.
Proof.
  cbn [Curve.on_curve]. intros H ->.
  rewrite Zmod.mul_0_l in H. symmetry in H. exact (minus_seven_not_cube x H).
Qed.

(** The group law, on secp256k1. *)
Lemma secp_add_on_curve (Q R : point) :
  Curve.on_curve b Q -> Curve.on_curve b R -> Curve.on_curve b (Curve.add Q R).
Proof. exact (GroupLaw.add_on_curve P PrimalityFacts.prime_P SecpFacts.P_big b Q R). Qed.

Lemma secp_mul_on_curve (k : Z) (Q : point) :
  Curve.on_curve b Q -> Curve.on_curve b (Curve.mul k Q).
Proof. exact (GroupLaw.mul_on_curve P PrimalityFacts.prime_P SecpFacts.P_big b k Q). Qed.

Lemma secp_neg_on_curve (Q : point) : Curve.on_curve b Q -> Curve.on_curve b (Curve.neg Q).
Proof. exact (GroupLaw.neg_on_curve P PrimalityFacts.prime_P b Q). Qed.

Lemma secp_mul_exchange (j k : Z) (Q : point) :
  0 <= j -> 0 <= k -> Curve.on_curve b Q ->
  Curve.mul j (Curve.mul k Q) = Curve.mul k (Curve.mul j Q).
Proof.
  exact (GroupLaw.mul_exchange P PrimalityFacts.prime_P SecpFacts.P_big b SecpFacts.b_nz j k Q).
Qed.

Lemma secp_mul_neg (k : Z) (Q : point) :
  Curve.on_curve b Q -> Curve.mul k (Curve.neg Q) = Curve.neg (Curve.mul k Q).
Proof. exact (GroupLaw.mul_neg P PrimalityFacts.prime_P SecpFacts.P_big b k Q). Qed.

Lemma secp_mul_order (Q : point) (k : Z) :
  Curve.on_curve b Q -> Q <> Curve.Inf -> Curve.mul n Q = Curve.Inf ->
  0 < k < n -> Curve.mul k Q <> Curve.Inf.
Proof.
  exact (GroupLaw.mul_order P PrimalityFacts.prime_P SecpFacts.P_big b SecpFacts.b_nz n Q k
           PrimalityFacts.prime_n).
Qed.

(** The public key of a private key: a finite point of the curve. *)
Lemma mul_G_on_curve (k : Z) : Curve.on_curve b (Curve.mul k G).
Proof. exact (secp_mul_on_curve k G SecpFacts.G_on_curve). Qed.

Lemma mul_G_finite (k : Z) : 0 < k < n -> Curve.mul k G <> Curve.Inf.
Proof. exact (secp_mul_order G k SecpFacts.G_on_curve SecpFacts.G_finite SecpFacts.n_G). Qed.

(** A multiple of a public key by a valid scalar is finite too. *)
Lemma mul_mul_G_finite (j k : Z) :
  0 < j < n -> 0 < k < n -> Curve.mul j (Curve.mul k G) <> Curve.Inf.
Proof.
  intros Hj Hk.
  assert (Hn : Curve.mul n (Curve.mul k G) = Curve.Inf).
  { assert (H0 : 0 <= n) by (vm_compute; discriminate).
    rewrite (secp_mul_exchange n k G H0 ltac:(lia) SecpFacts.G_on_curve).
    rewrite SecpFacts.n_G. apply GroupLaw.mul_Inf. }
  exact (secp_mul_order (Curve.mul k G) j (mul_G_on_curve k) (mul_G_finite k Hk) Hn Hj).
Qed.

(** ** Encodings *)

Lemma coordinate_round_trip (x : F) :
  Hex.to_Z (Noble.numTo32bStr (Zmod.to_Z x)) = Some (Zmod.to_Z x).
Proof. apply to_Z_of_Z, to_Z_bounds_256. Qed.

Lemma length_numTo32bStr (z : Z) : String.length (Noble.numTo32bStr z) = 64%nat.
Proof. apply length_of_Z. Qed.

Lemma uncompressed_Aff (x y : F) :
  KeyPair.uncompressed (Curve.Aff x y)
  = "0x04" ++ Noble.numTo32bStr (Zmod.to_Z x) ++ Noble.numTo32bStr (Zmod.to_Z y).
Proof. reflexivity. Qed.

Lemma length_coordinates (X Y : string) :
  String.length X = 64%nat -> String.length Y = 64%nat ->
  String.length ("0x04" ++ X ++ Y) = 132%nat
  /\ String.substring 4 64 ("0x04" ++ X ++ Y) = X
  /\ String.substring 68 64 ("0x04" ++ X ++ Y) = Y
  /\ Hex.slice 2 ("0x04" ++ X ++ Y) = "04" ++ X ++ Y
  /\ String.substring 0 64 (X ++ Y) = X
  /\ String.substring 64 64 (X ++ Y) = Y.
Proof.
  intros HX HY.
  assert (E5 : String.substring 0 64 (X ++ Y) = X)
    by (rewrite <- HX at 1; apply substring_0_append).
  assert (E6 : String.substring 64 64 (X ++ Y) = Y).
  { rewrite <- HX at 1. rewrite substring_skip_append. rewrite <- HY at 1.
    apply substring_0_all. }
  repeat split; try assumption.
  - change ("0x04" ++ X ++ Y) with (String "0" (String "x" (String "0" (String "4" (X ++ Y))))).
    cbn [String.length]. rewrite length_append, HX, HY. reflexivity.
Qed.

Lemma isHexString_coordinates (x y : Z) :
  Ethers.isHexString ("0x04" ++ Noble.numTo32bStr x ++ Noble.numTo32bStr y) = true.
Proof.
  change ("0x04" ++ Noble.numTo32bStr x ++ Noble.numTo32bStr y)
    with ("0x" ++ ("04" ++ Noble.numTo32bStr x ++ Noble.numTo32bStr y)).
  apply EthersFacts.isHexString_0x.
  rewrite !all_hex_append. unfold Noble.numTo32bStr. rewrite !all_hex_of_Z. reflexivity.
Qed.

(** The uncompressed key of a finite point of the curve passes
    [assertValidPoint]. *)
Lemma assertValidPoint_uncompressed (Q : point) :
  Curve.on_curve b Q -> Q <> Curve.Inf ->
  Utils.assertValidPoint (KeyPair.uncompressed Q) = Ok tt.
Proof.
  intros Hc Hf. destruct Q as [|x y]; [congruence|].
  rewrite uncompressed_Aff. unfold Utils.assertValidPoint.
  destruct (length_coordinates _ _ (length_numTo32bStr (Zmod.to_Z x))
              (length_numTo32bStr (Zmod.to_Z y))) as (E1 & E2 & E3 & _).
  rewrite isHexString_coordinates, E1, E2, E3.
  unfold Hex.starts_with. rewrite (prefix_append "0x04").
  cbn [Nat.eqb andb]. rewrite !coordinate_round_trip, !fe_to_Z.
  unfold Noble.weierstrass. cbn [Curve.on_curve] in Hc. rewrite Hc.
  rewrite Zmod.eqb_refl. reflexivity.
Qed.

Lemma length_uncompressed (Q : point) : String.length (KeyPair.uncompressed Q) = 132%nat.
Proof.
  unfold KeyPair.uncompressed, Noble.toHex.
  apply (length_coordinates _ _ (length_numTo32bStr (Noble.px Q)) (length_numTo32bStr (Noble.py Q))).
Qed.

Lemma isHexString_uncompressed (Q : point) : Ethers.isHexString (KeyPair.uncompressed Q) = true.
Proof. apply isHexString_coordinates. Qed.

(** The elliptic-curve library decodes the uncompressed key of a finite
    point of the curve to that point. *)
Lemma fromHex_uncompressed (Q : point) :
  Curve.on_curve b Q -> Q <> Curve.Inf ->
  Noble.fromHex (Hex.slice 2 (KeyPair.uncompressed Q)) = Ok Q.
Proof.
  intros Hc Hf. destruct Q as [|x y]; [congruence|].
  rewrite uncompressed_Aff.
  destruct (length_coordinates _ _ (length_numTo32bStr (Zmod.to_Z x))
              (length_numTo32bStr (Zmod.to_Z y))) as (E1 & _ & _ & E4 & E5 & E6).
  rewrite E4. unfold Noble.fromHex.
  assert (Hl : String.length ("04" ++ Noble.numTo32bStr (Zmod.to_Z x)
                                   ++ Noble.numTo32bStr (Zmod.to_Z y)) = 130%nat).
  { cbn [String.append String.length]. rewrite length_append, !length_numTo32bStr. reflexivity. }
  rewrite Hl.
  assert (Hh : Hex.all_hex ("04" ++ Noble.numTo32bStr (Zmod.to_Z x)
                                 ++ Noble.numTo32bStr (Zmod.to_Z y)) = true).
  { rewrite !all_hex_append. unfold Noble.numTo32bStr. rewrite !all_hex_of_Z. reflexivity. }
  rewrite Hh. cbn [negb orb Nat.odd Nat.eqb andb].
  unfold Hex.starts_with. rewrite (prefix_append "04").
  change (Hex.slice 2 ("04" ++ Noble.numTo32bStr (Zmod.to_Z x) ++ Noble.numTo32bStr (Zmod.to_Z y)))
    with (Noble.numTo32bStr (Zmod.to_Z x) ++ Noble.numTo32bStr (Zmod.to_Z y)).
  unfold Noble.fromUncompressedHex. rewrite E5, E6, !coordinate_round_trip.
  unfold Noble.assertValidity, Noble.isValidFieldElement.
  pose proof (to_Z_pos x (x_nz x y Hc)) as Hx.
  pose proof (to_Z_pos y (y_nz x y Hc)) as Hy.
  destruct (Z.ltb_spec 0 (Zmod.to_Z x)); [|lia].
  destruct (Z.ltb_spec (Zmod.to_Z x) P); [|lia].
  destruct (Z.ltb_spec 0 (Zmod.to_Z y)); [|lia].
  destruct (Z.ltb_spec (Zmod.to_Z y) P); [|lia].
  rewrite !fe_to_Z. unfold Noble.weierstrass. cbn [Curve.on_curve] in Hc.
  rewrite Hc, Zmod.eqb_refl. reflexivity.
Qed.

(** Private keys. *)
Lemma scalar_bounds (k : Z) : 0 < k < n -> 0 <= k < 16 ^ Z.of_nat 64.
Proof. intros H. assert (n < 16 ^ Z.of_nat 64) by reflexivity. lia. Qed.

Lemma assertValidPrivateKey_hex32 (k : Z) :
  0 < k < n -> Utils.assertValidPrivateKey (hex32 k) = Ok tt.
Proof.
  intros H. unfold Utils.assertValidPrivateKey.
  rewrite EthersFacts.isHexString_hex32, EthersFacts.length_hex32, EthersFacts.slice_hex32.
  cbn [Nat.eqb andb]. rewrite to_Z_of_Z by (apply scalar_bounds; exact H).
  destruct (Z.ltb_spec 0 k); [|lia]. destruct (Z.ltb_spec k n); [|lia]. reflexivity.
Qed.

Lemma normalizePrivateKey_hex (k : Z) :
  0 < k < n -> Noble.normalizePrivateKey (Hex.of_Z 64 k) = Ok k.
Proof.
  intros H. unfold Noble.normalizePrivateKey. rewrite length_of_Z. cbn [Nat.eqb negb].
  rewrite to_Z_of_Z by (apply scalar_bounds; exact H).
  unfold Noble.isWithinCurveOrder.
  destruct (Z.ltb_spec 0 k); [|lia]. destruct (Z.ltb_spec k n); [|lia]. reflexivity.
Qed.

(** Bytes of an encoded point. *)
Lemma lower_hex_02 (s : string) : Hex.lower_hex s -> Hex.lower_hex ("02" ++ s).
Proof.
  intros H. change ("02" ++ s) with (String (Hex.digit_of 0) (String (Hex.digit_of 2) s)).
  repeat (constructor; [lia|]). exact H.
Qed.

Lemma lower_hex_03 (s : string) : Hex.lower_hex s -> Hex.lower_hex ("03" ++ s).
Proof.
  intros H. change ("03" ++ s) with (String (Hex.digit_of 0) (String (Hex.digit_of 3) s)).
  repeat (constructor; [lia|]). exact H.
Qed.

Lemma lower_hex_04 (s : string) : Hex.lower_hex s -> Hex.lower_hex ("04" ++ s).
Proof.
  intros H. change ("04" ++ s) with (String (Hex.digit_of 0) (String (Hex.digit_of 4) s)).
  repeat (constructor; [lia|]). exact H.
Qed.

Lemma bytesToHex_toRawBytes (Q : point) (isCompressed : bool) :
  Noble.bytesToHex (Noble.toRawBytes Q isCompressed) = Noble.toHex Q isCompressed.
Proof.
  unfold Noble.bytesToHex, Noble.toRawBytes.
  destruct (bytes_round_trip (Noble.toHex Q isCompressed)) as (bs & E1 & E2 & _).
  - unfold Noble.toHex, Noble.numTo32bStr.
    destruct isCompressed; [destruct (Noble.hasEvenY Q)|];
      auto using lower_hex_02, lower_hex_03, lower_hex_04, lower_hex_append, lower_hex_of_Z.
  - unfold Noble.toHex, Noble.numTo32bStr.
    destruct isCompressed; [destruct (Noble.hasEvenY Q)|];
      cbn [String.append String.length]; rewrite ?length_append, !length_of_Z; reflexivity.
  - rewrite E1. exact E2.
Qed.

Lemma slice_toHex_compressed (Q : point) :
  Hex.slice 2 (Noble.toHex Q true) = Noble.numTo32bStr (Noble.px Q).
Proof. unfold Noble.toHex. destruct (Noble.hasEvenY Q); reflexivity. Qed.

Lemma to_bytes_32 (z : Z) : Hex.to_bytes (Hex.of_Z 64 z) = Some (bytes32 z).
Proof.
  unfold bytes32.
  destruct (bytes_round_trip (Hex.of_Z 64 z)) as (bs & E1 & _).
  - apply lower_hex_of_Z.
  - rewrite length_of_Z. reflexivity.
  - rewrite E1. reflexivity.
Qed.

Lemma length_bytes32 (z : Z) : length (bytes32 z) = 32%nat.
Proof.
  unfold bytes32.
  destruct (bytes_round_trip (Hex.of_Z 64 z)) as (bs & E1 & _ & E3).
  - apply lower_hex_of_Z.
  - rewrite length_of_Z. reflexivity.
  - rewrite E1, E3, length_of_Z. reflexivity.
Qed.

Lemma sha256_32 (z : Z) :
  Ethers.sha256 ("0x" ++ Hex.of_Z 64 z) = Ok (Ethers.hexlify (Sha256.digest (bytes32 z))).
Proof.
  unfold Ethers.sha256, Ethers.arrayify.
  rewrite EthersFacts.isHexString_0x by apply all_hex_of_Z.
  change (Hex.slice 2 ("0x" ++ Hex.of_Z 64 z)) with (Hex.of_Z 64 z).
  rewrite to_bytes_32. reflexivity.
Qed.

(** ** The shared secret *)

(** For a valid private key and the uncompressed key of a finite point
    of the curve, [getSharedSecret] makes its four calls and returns the
    hash of the x-coordinate of the product. *)
Lemma getSharedSecret_logged_value (a : Z) (Q : point) :
  0 < a < n -> Curve.on_curve b Q -> Q <> Curve.Inf ->
  ScanPerformance.getSharedSecret_logged (hex32 a) (KeyPair.uncompressed Q)
  = ([ScanPerformance.CallAssertValidPoint; ScanPerformance.CallAssertValidPrivateKey;
      ScanPerformance.CallNobleGetSharedSecret; ScanPerformance.CallSha256],
     Ok (hashOfX (Curve.mul a Q))).
Proof.
  intros Ha Hc Hf. unfold ScanPerformance.getSharedSecret_logged.
  rewrite EthersFacts.length_hex32, EthersFacts.isHexString_hex32.
  rewrite length_uncompressed, isHexString_uncompressed.
  cbn [Utils.privateKey Utils.publicKey Utils.lengths Nat.eqb negb orb].
  rewrite (assertValidPoint_uncompressed Q Hc Hf), (assertValidPrivateKey_hex32 a Ha).
  rewrite EthersFacts.slice_hex32.
  unfold Noble.getSharedSecret, Noble.isPub.
  rewrite length_of_Z.
  assert (Hl : String.length (Hex.slice 2 (KeyPair.uncompressed Q)) = 130%nat).
  { destruct (length_coordinates _ _ (length_numTo32bStr (Noble.px Q))
                (length_numTo32bStr (Noble.py Q))) as (_ & _ & _ & E4 & _).
    unfold KeyPair.uncompressed, Noble.toHex.
    change ("0x" ++ "04" ++ Noble.numTo32bStr (Noble.px Q) ++ Noble.numTo32bStr (Noble.py Q))
      with ("0x04" ++ Noble.numTo32bStr (Noble.px Q) ++ Noble.numTo32bStr (Noble.py Q)).
    rewrite E4. cbn [String.append String.length].
    rewrite length_append, !length_numTo32bStr. reflexivity. }
  rewrite Hl. cbn [Nat.eqb negb orb].
  rewrite (fromHex_uncompressed Q Hc Hf), (normalizePrivateKey_hex a Ha).
  cbn [bind]. unfold Noble.multiply, Noble.isWithinCurveOrder.
  destruct (Z.ltb_spec 0 a); [|lia]. destruct (Z.ltb_spec a n); [|lia].
  cbn [andb bind lbind lcall app].
  rewrite bytesToHex_toRawBytes, slice_toHex_compressed.
  unfold Noble.numTo32bStr. rewrite sha256_32. reflexivity.
Qed.

Lemma getSharedSecret_value (a : Z) (Q : point) :
  0 < a < n -> Curve.on_curve b Q -> Q <> Curve.Inf ->
  ScanPerformance.getSharedSecret (hex32 a) (KeyPair.uncompressed Q)
  = Ok (hashOfX (Curve.mul a Q)).
Proof.
  intros Ha Hc Hf. unfold ScanPerformance.getSharedSecret.
  rewrite (getSharedSecret_logged_value a Q Ha Hc Hf). reflexivity.
Qed.

Lemma px_neg (Q : point) : Noble.px (Curve.neg Q) = Noble.px Q.
Proof. destruct Q; reflexivity. Qed.

Lemma neg_finite (Q : point) : Q <> Curve.Inf -> Curve.neg Q <> Curve.Inf.
Proof. destruct Q; [congruence|discriminate]. Qed.

End PointFacts.

(** * Recovery of a point from its x-coordinate *)

Module RecoveryFacts.
Import Secp256k1 HexFacts.
Local Open Scope string_scope.
Local Open Scope Z_scope.

(** [P = 3 mod 4]: the power [(P + 1) / 4] of a square is one of its
    square roots. *)
Lemma sqrtMod_square (y : F) :
  y <> Zmod.zero ->
  Noble.sqrtMod (Zmod.mul y y) = y \/ Noble.sqrtMod (Zmod.mul y y) = Zmod.opp y.
Proof.
  intros Hy. apply (Zmod.square_roots_opp_prime PrimalityFacts.prime_P).
  unfold Noble.sqrtMod. rewrite <- (Zmod.pow_2_r y).
  rewrite <- !Zmod.pow_mul_r_nonneg by (vm_compute; discriminate).
  match goal with
  | |- Zmod.pow y ?e = _ => replace e with (Z.pred P + 2) by reflexivity
  end.
  rewrite Zmod.pow_add_r_nonneg by (vm_compute; discriminate).
  rewrite (Zmod.fermat_nz y Hy PrimalityFacts.prime_P). apply Zmod.mul_1_l.
Qed.

Lemma to_Z_opp (y : F) : y <> Zmod.zero -> Zmod.to_Z (Zmod.opp y) = P - Zmod.to_Z y.
Proof.
  intros Hy. pose proof (PointFacts.to_Z_pos y Hy) as H.
  rewrite Zmod.unsigned_opp. symmetry. apply Z.mod_unique with (-1); lia.
Qed.

Lemma even_opp (y : F) :
  y <> Zmod.zero -> Z.even (Zmod.to_Z (Zmod.opp y)) = negb (Z.even (Zmod.to_Z y)).
Proof.
  intros Hy. rewrite (to_Z_opp y Hy).
  replace (P - Zmod.to_Z y) with (1 + (P - 1 - Zmod.to_Z y)) by lia.
  rewrite Z.even_add, Z.even_sub. 
  replace (Z.even (P - 1)) with true by reflexivity.
  change (Z.even 1) with false.
  destruct (Z.even (Zmod.to_Z y)); reflexivity.
Qed.

(** The candidate with the even y-coordinate. *)
Lemma recover_even (x y : F) :
  Curve.on_curve b (Curve.Aff x y) ->
  KeyPair.getUncompressedFromX (hex32 (Zmod.to_Z x))
  = Ok (KeyPair.uncompressed
          (Curve.Aff x (if Z.even (Zmod.to_Z y) then y else Zmod.opp y))).
Proof.
  intros Hc. pose proof (PointFacts.y_nz x y Hc) as Hy.
  unfold KeyPair.getUncompressedFromX.
  rewrite EthersFacts.isHexString_hex32, EthersFacts.slice_hex32.
  rewrite (to_Z_of_Z 64) by apply PointFacts.to_Z_bounds_256.
  pose proof (PointFacts.to_Z_bounds x) as Hx.
  destruct (Z.ltb_spec (Zmod.to_Z x) P) as [_|]; [|lia].
  rewrite PointFacts.fe_to_Z. unfold Noble.weierstrass.
  cbn [Curve.on_curve] in Hc. rewrite <- Hc.
  assert (Hopp : Zmod.mul (Zmod.opp y) (Zmod.opp y) = Zmod.mul y y)
    by apply Zmod.mul_opp_opp.
  destruct (sqrtMod_square y Hy) as [E|E]; rewrite E.
  - rewrite Zmod.eqb_refl. reflexivity.
  - rewrite Hopp, Zmod.eqb_refl, Zmod.opp_opp, (even_opp y Hy).
    destruct (Z.even (Zmod.to_Z y)); reflexivity.
Qed.

(** The point of the two with the given x-coordinate whose y-coordinate
    is even. *)
Lemma recover_public_key (Q : point) :
  Curve.on_curve b Q -> Q <> Curve.Inf ->
  KeyPair.getUncompressedFromX (hex32 (Noble.px Q))
  = Ok (KeyPair.uncompressed (if Noble.hasEvenY Q then Q else Curve.neg Q)).
Proof.
  intros Hc Hf. destruct Q as [|x y]; [congruence|].
  cbn [Noble.px]. rewrite (recover_even x y Hc).
  unfold Noble.hasEvenY. cbn [Noble.py Curve.neg].
  destruct (Z.even (Zmod.to_Z y)); reflexivity.
Qed.

Lemma recovered_cases (Q : point) :
  (if Noble.hasEvenY Q then Q else Curve.neg Q) = Q
  \/ (if Noble.hasEvenY Q then Q else Curve.neg Q) = Curve.neg Q.
Proof. destruct (Noble.hasEvenY Q); auto. Qed.

(** Distinct points have distinct keys. *)
Lemma numTo32bStr_inj (u v : F) :
  Noble.numTo32bStr (Zmod.to_Z u) = Noble.numTo32bStr (Zmod.to_Z v) -> u = v.
Proof.
  intros H. apply (f_equal Hex.to_Z) in H.
  rewrite !PointFacts.coordinate_round_trip in H. injection H as H.
  rewrite <- (PointFacts.fe_to_Z u), <- (PointFacts.fe_to_Z v), H. reflexivity.
Qed.

Lemma neg_key_differs (x y : F) :
  Curve.on_curve b (Curve.Aff x y) ->
  KeyPair.uncompressed (Curve.neg (Curve.Aff x y)) <> KeyPair.uncompressed (Curve.Aff x y).
Proof.
  intros Hc H. pose proof (PointFacts.y_nz x y Hc) as Hy.
  cbn [Curve.neg] in H. rewrite !PointFacts.uncompressed_Aff in H.
  destruct (PointFacts.length_coordinates _ _
              (PointFacts.length_numTo32bStr (Zmod.to_Z x))
              (PointFacts.length_numTo32bStr (Zmod.to_Z (Zmod.opp y)))) as (_ & _ & E3 & _).
  destruct (PointFacts.length_coordinates _ _
              (PointFacts.length_numTo32bStr (Zmod.to_Z x))
              (PointFacts.length_numTo32bStr (Zmod.to_Z y))) as (_ & _ & E3' & _).
  apply (f_equal (String.substring 68 64)) in H. rewrite E3, E3' in H.
  apply numTo32bStr_inj in H.
  pose proof (even_opp y Hy) as He. rewrite H in He.
  destruct (Z.even (Zmod.to_Z y)); discriminate.
Qed.

End RecoveryFacts.

(** * The hash of the shared secret *)

Module HashFacts.
Import HexFacts.
Local Open Scope string_scope.
Local Open Scope Z_scope.

Lemma length_round (st : list Z) (kw : Z * Z) : length (Sha256.round st kw) = length st.
Proof.
  unfold Sha256.round.
  destruct st as [|a [|b [|c [|d [|e [|f [|g [|h [|i st]]]]]]]]]; reflexivity.
Qed.

Lemma length_rounds (l : list (Z * Z)) (st : list Z) :
  length (fold_left Sha256.round l st) = length st.
Proof.
  revert st. induction l as [|kw l IH]; intros st; cbn [fold_left]; [reflexivity|].
  rewrite IH. apply length_round.
Qed.

Lemma length_compress (h block : list Z) : length (Sha256.compress h block) = length h.
Proof.
  unfold Sha256.compress. rewrite length_map, length_combine, length_rounds.
  apply Nat.min_id.
Qed.

Lemma length_blocks (k : nat) (ws h : list Z) : length (Sha256.blocks k ws h) = length h.
Proof.
  revert ws h. induction k as [|k IH]; intros ws h; cbn [Sha256.blocks]; [reflexivity|].
  destruct ws; [reflexivity|]. rewrite IH. apply length_compress.
Qed.

Lemma length_be_bytes (k : nat) (z : Z) : length (Sha256.be_bytes k z) = k.
Proof.
  revert z. induction k as [|k IH]; intros z; cbn [Sha256.be_bytes]; [reflexivity|].
  rewrite length_app, IH. cbn [length]. lia.
Qed.

Lemma length_words_bytes (l : list Z) :
  length (flat_map (Sha256.be_bytes 4) l) = (4 * length l)%nat.
Proof.
  induction l as [|z l IH]; [reflexivity|].
  cbn [flat_map]. rewrite length_app, length_be_bytes, IH. cbn [length]. lia.
Qed.

(** A SHA-256 digest has 32 bytes. *)
Lemma length_digest (msg : list byte) : length (Sha256.digest msg) = 32%nat.
Proof.
  unfold Sha256.digest. rewrite length_map, length_words_bytes, length_blocks.
  reflexivity.
Qed.

Lemma sha256_hexlify (bs : list byte) :
  Ethers.sha256 (Ethers.hexlify bs) = Ok (Ethers.hexlify (Sha256.digest bs)).
Proof.
  unfold Ethers.sha256, Ethers.arrayify, Ethers.hexlify.
  rewrite EthersFacts.isHexString_0x by apply EthersFacts.all_hex_of_bytes.
  change (Hex.slice 2 ("0x" ++ Hex.of_bytes bs)) with (Hex.of_bytes bs).
  rewrite EthersFacts.to_bytes_of_bytes. reflexivity.
Qed.

(** The secret is the hexadecimal string of a number below [2^256]. *)
Lemma secret_number (S : Secp256k1.point) :
  exists s, Ethers.BigNumber_from (hashOfX S) = Ok s /\ 0 <= s < 2 ^ 256.
Proof.
  unfold hashOfX.
  destruct (EthersFacts.BigNumber_from_hexlify (Sha256.digest (bytes32 (Noble.px S))))
    as (s & Hs & Hr).
  - intros E. apply (f_equal (@length byte)) in E. rewrite length_digest in E. discriminate.
  - exists s. split; [exact Hs|]. rewrite length_digest in Hr.
    change (256 ^ Z.of_nat 32) with (2 ^ 256) in Hr. exact Hr.
Qed.

End HashFacts.

(** * Key pairs and the stages of the reducer *)

Module KeyPairFacts.
Import Secp256k1 HexFacts.
Local Open Scope string_scope.
Local Open Scope Z_scope.

Lemma new_private (k : Z) :
  0 < k < n ->
  KeyPair.new (hex32 k)
  = Ok {| KeyPair.privateKeyHex := Some (hex32 k);
          KeyPair.publicKeyHex := Some (KeyPair.uncompressed (Curve.mul k G)) |}.
Proof.
  intros Hk. unfold KeyPair.new.
  rewrite EthersFacts.length_hex32. cbn [Utils.privateKey Utils.lengths Nat.eqb].
  rewrite (PointFacts.assertValidPrivateKey_hex32 k Hk). cbn [bind].
  rewrite EthersFacts.slice_hex32. unfold Noble.getPublicKey.
  rewrite (PointFacts.normalizePrivateKey_hex k Hk). cbn [bind].
  unfold Noble.multiply, Noble.isWithinCurveOrder.
  destruct (Z.ltb_spec 0 k); [|lia]. destruct (Z.ltb_spec k n); [|lia].
  cbn [andb bind]. rewrite PointFacts.bytesToHex_toRawBytes. reflexivity.
Qed.

Lemma new_public (Q : point) :
  Curve.on_curve b Q -> Q <> Curve.Inf ->
  KeyPair.new (KeyPair.uncompressed Q)
  = Ok {| KeyPair.privateKeyHex := None;
          KeyPair.publicKeyHex := Some (KeyPair.uncompressed Q) |}.
Proof.
  intros Hc Hf. unfold KeyPair.new.
  rewrite PointFacts.length_uncompressed. cbn [Utils.privateKey Utils.lengths Nat.eqb].
  rewrite (PointFacts.assertValidPoint_uncompressed Q Hc Hf). reflexivity.
Qed.

Lemma publicPoint_uncompressed (priv : option string) (Q : point) :
  Q <> Curve.Inf ->
  KeyPair.publicPoint {| KeyPair.privateKeyHex := priv;
                         KeyPair.publicKeyHex := Some (KeyPair.uncompressed Q) |}
  = Ok Q.
Proof.
  intros Hf. destruct Q as [|x y]; [congruence|].
  unfold KeyPair.publicPoint. cbn [KeyPair.publicKeyHex].
  rewrite PointFacts.uncompressed_Aff.
  destruct (PointFacts.length_coordinates _ _
              (PointFacts.length_numTo32bStr (Zmod.to_Z x))
              (PointFacts.length_numTo32bStr (Zmod.to_Z y))) as (_ & E2 & E3 & _).
  rewrite E2, E3, !PointFacts.coordinate_round_trip, !PointFacts.fe_to_Z. reflexivity.
Qed.

Lemma mulPublicKey_value (priv : option string) (Q : point) (r : Z) :
  Q <> Curve.Inf -> 0 < r < n ->
  KeyPair.mulPublicKey {| KeyPair.privateKeyHex := priv;
                          KeyPair.publicKeyHex := Some (KeyPair.uncompressed Q) |} (hex32 r)
  = Ok {| KeyPair.privateKeyHex := None;
          KeyPair.publicKeyHex := Some (KeyPair.uncompressed (Curve.mul r Q)) |}.
Proof.
  intros Hf Hr. unfold KeyPair.mulPublicKey.
  rewrite (publicPoint_uncompressed priv Q Hf). cbn [bind].
  rewrite EthersFacts.isHexString_hex32, EthersFacts.slice_hex32.
  rewrite to_Z_of_Z by (apply PointFacts.scalar_bounds; exact Hr).
  destruct (Z.ltb_spec 0 r); [|lia]. destruct (Z.ltb_spec r n); [|lia]. reflexivity.
Qed.

Lemma address_value (priv : option string) (Q : point) :
  Q <> Curve.Inf ->
  KeyPair.address {| KeyPair.privateKeyHex := priv;
                     KeyPair.publicKeyHex := Some (KeyPair.uncompressed Q) |}
  = Ok (KeyPair.addressOfPoint Q).
Proof.
  intros Hf. unfold KeyPair.address.
  rewrite (publicPoint_uncompressed priv Q Hf). reflexivity.
Qed.

Lemma truthy_uncompressed (Q : point) : ScanPerformance.truthy (KeyPair.uncompressed Q) = true.
Proof. reflexivity. Qed.

Lemma truthy_hex32 (z : Z) : ScanPerformance.truthy (hex32 z) = true.
Proof. reflexivity. Qed.

(** The recovered point, whichever of the two it is, gives the secret of
    the point itself. *)
Lemma hashOfX_recovered (v : Z) (Q : point) :
  Curve.on_curve b Q ->
  hashOfX (Curve.mul v (if Noble.hasEvenY Q then Q else Curve.neg Q)) = hashOfX (Curve.mul v Q).
Proof.
  intros Hc. destruct (Noble.hasEvenY Q); [reflexivity|].
  rewrite (PointFacts.secp_mul_neg v Q Hc). unfold hashOfX. rewrite PointFacts.px_neg. reflexivity.
Qed.

Lemma recovered_on_curve (Q : point) :
  Curve.on_curve b Q -> Q <> Curve.Inf ->
  Curve.on_curve b (if Noble.hasEvenY Q then Q else Curve.neg Q)
  /\ (if Noble.hasEvenY Q then Q else Curve.neg Q) <> Curve.Inf.
Proof.
  intros Hc Hf. destruct (Noble.hasEvenY Q); split;
    auto using PointFacts.secp_neg_on_curve, PointFacts.neg_finite.
Qed.

(** Lines 111-121, for a valid viewing key and the key of a finite point
    of the curve. *)
Lemma secretStage_value (receiver : Wallet) (ann : Announcement) (v : Z) (Q : point) :
  wallet_privateKey receiver = hex32 v -> 0 < v < n ->
  ScanPerformance.truthy (ciphertext ann) = true ->
  Curve.on_curve b Q -> Q <> Curve.Inf ->
  ScanPerformance.secretStage receiver ann (KeyPair.uncompressed Q)
  = Ok (hashOfX (Curve.mul v Q)).
Proof.
  intros Hw Hv Ht Hc Hf. unfold ScanPerformance.secretStage.
  rewrite Hw, (new_private v Hv). cbn [bind].
  rewrite truthy_uncompressed, Ht. cbn [andb assert_that bind KeyPair.privateKeyHex].
  rewrite truthy_hex32. cbn [assert_that bind].
  rewrite (PointFacts.assertValidPoint_uncompressed Q Hc Hf). cbn [bind].
  exact (PointFacts.getSharedSecret_value v Q Hv Hc Hf).
Qed.

(** Lines 129-131, for the key of a finite point and a valid scalar. *)
Lemma addressStage_value (receiver : Wallet) (Q : point) (r : Z) :
  wallet_publicKey receiver = KeyPair.uncompressed Q ->
  Curve.on_curve b Q -> Q <> Curve.Inf -> 0 < r < n ->
  Curve.mul r Q <> Curve.Inf ->
  ScanPerformance.addressStage receiver (hex32 r)
  = Ok (KeyPair.addressOfPoint (Curve.mul r Q)).
Proof.
  intros Hw Hc Hf Hr Hm. unfold ScanPerformance.addressStage.
  rewrite Hw, (new_public Q Hc Hf). cbn [bind].
  rewrite (mulPublicKey_value None Q r Hf Hr). cbn [bind].
  exact (address_value None (Curve.mul r Q) Hm).
Qed.

(** The reducer's body on an announcement that holds the x-coordinate
    of [e * G] and the random number [r] encrypted with the secret of [e]
    and [v * G]. *)
Lemma computed_address (receiver : Wallet) (ann : Announcement) (e v s r sec : Z) :
  0 < e < n -> 0 < v < n -> 0 < s < n -> 0 < r < n ->
  wallet_privateKey receiver = hex32 v ->
  wallet_publicKey receiver = KeyPair.uncompressed (Curve.mul s G) ->
  Ethers.BigNumber_from (hashOfX (Curve.mul e (Curve.mul v G))) = Ok sec ->
  0 <= sec < 2 ^ 256 ->
  pkx ann = hex32 (Noble.px (Curve.mul e G)) ->
  ciphertext ann = hex32 (Z.lxor r sec) ->
  ScanPerformance.computedReceivingAddress receiver ann
  = Ok (KeyPair.addressOfPoint (Curve.mul r (Curve.mul s G))).
Proof.
  intros He Hv Hs Hr Hw1 Hw2 Hsec Hsr Hpkx Hct.
  pose proof (PointFacts.mul_G_on_curve e) as HEc.
  pose proof (PointFacts.mul_G_finite e He) as HEf.
  assert (Hrr : 0 <= r < 2 ^ 256).
  { pose proof (PointFacts.scalar_bounds r Hr) as H.
    change (16 ^ Z.of_nat 64) with (2 ^ 256) in H. exact H. }
  assert (Hb : 0 <= Z.lxor r sec < 2 ^ 256) by (apply EthersFacts.lxor_bound; assumption).
  assert (Hc : Ethers.BigNumber_from (ciphertext ann) = Ok (Z.lxor r sec))
    by (rewrite Hct; apply EthersFacts.BigNumber_from_hex32; exact Hb).
  assert (Ht : ScanPerformance.truthy (ciphertext ann) = true)
    by (rewrite Hct; apply truthy_hex32).
  assert (Hx : forall Q : point,
             Curve.on_curve b Q -> Q <> Curve.Inf ->
             hashOfX (Curve.mul v Q) = hashOfX (Curve.mul e (Curve.mul v G)) ->
             (let* sharedSecret :=
                ScanPerformance.secretStage receiver ann (KeyPair.uncompressed Q) in
              let* _ := ScanPerformance.tagStage sharedSecret in
              let* randomNumber := ScanPerformance.decryptStage ann sharedSecret in
              ScanPerformance.addressStage receiver randomNumber)
             = Ok (KeyPair.addressOfPoint (Curve.mul r (Curve.mul s G)))).
  { intros Q HQc HQf HQh.
    rewrite (secretStage_value receiver ann v Q Hw1 Hv Ht HQc HQf). cbn [bind].
    rewrite HQh.
    unfold ScanPerformance.tagStage, hashOfX at 1. rewrite HashFacts.sha256_hexlify.
    cbn [bind].
    rewrite (EthersFacts.decryptStage_value ann _ (Z.lxor r sec) sec Hc Hb Hsec Hsr).
    cbn [bind]. rewrite EthersFacts.lxor_cancel.
    exact (addressStage_value receiver (Curve.mul s G) r Hw2 (PointFacts.mul_G_on_curve s)
             (PointFacts.mul_G_finite s Hs) Hr (PointFacts.mul_mul_G_finite r s Hr Hs)). }
  assert (Hex : Curve.mul v (Curve.mul e G) = Curve.mul e (Curve.mul v G))
    by (apply PointFacts.secp_mul_exchange; try lia; exact SecpFacts.G_on_curve).
  unfold ScanPerformance.computedReceivingAddress, ScanPerformance.recoverStage.
  rewrite Hpkx, (RecoveryFacts.recover_public_key (Curve.mul e G) HEc HEf). cbn [bind].
  destruct (Noble.hasEvenY (Curve.mul e G)); apply Hx.
  - exact HEc.
  - exact HEf.
  - rewrite Hex. reflexivity.
  - exact (PointFacts.secp_neg_on_curve _ HEc).
  - exact (PointFacts.neg_finite _ HEf).
  - rewrite (PointFacts.secp_mul_neg v _ HEc), Hex. unfold hashOfX.
    rewrite PointFacts.px_neg. reflexivity.
Qed.

(** The whole of the sender's announcement and of the reducer's body:
    for an ephemeral key [e], a viewing key [v], a spending key [s] and a
    random number [r], all valid scalars, the announcement exists and the
    address the reducer computes is the address of [r * (s * G)]. *)
Lemma scan_of_announcement (e v s r blk idx : Z) :
  0 < e < n -> 0 < v < n -> 0 < s < n -> 0 < r < n ->
  exists ann,
    Sender.announce (hex32 e) (KeyPair.uncompressed (Curve.mul v G)) (hex32 r) blk idx = Ok ann
    /\ ScanPerformance.computedReceivingAddress
         {| wallet_privateKey := hex32 v;
            wallet_publicKey := KeyPair.uncompressed (Curve.mul s G) |} ann
       = Ok (KeyPair.addressOfPoint (Curve.mul r (Curve.mul s G))).
Proof.
  intros He Hv Hs Hr.
  destruct (HashFacts.secret_number (Curve.mul e (Curve.mul v G))) as (sec & Hsec & Hsr).
  assert (Hrr : 0 <= r < 2 ^ 256).
  { pose proof (PointFacts.scalar_bounds r Hr) as H.
    change (16 ^ Z.of_nat 64) with (2 ^ 256) in H. exact H. }
  eexists. split.
  - unfold Sender.announce. rewrite (new_private e He). cbn [bind].
    rewrite (publicPoint_uncompressed _ (Curve.mul e G) (PointFacts.mul_G_finite e He)).
    cbn [bind].
    rewrite (PointFacts.getSharedSecret_value e (Curve.mul v G) He
               (PointFacts.mul_G_on_curve v) (PointFacts.mul_G_finite v Hv)).
    cbn [bind].
    rewrite (EthersFacts.encrypt_value (hex32 r) _ r sec
               (EthersFacts.BigNumber_from_hex32 r Hrr) Hrr Hsec Hsr).
    cbn [bind]. reflexivity.
  - apply (computed_address _ _ e v s r sec); try assumption; reflexivity.
Qed.

End KeyPairFacts.

(** * The reducer's body, end to end (lines 106-131) *)

Module PipelineClaim.
Import Secp256k1.
Local Open Scope string_scope.
Local Open Scope Z_scope.

(** C1, as stated, fails: for the spending key [S = G] (private key 1)
    and the random number 2, the address the reducer computes for the
    announcement is the address of [2 * S], which is not the address of
    [S + 2 * G]. *)
Lemma derived_address_is_not_of_sum :
  exists ann,
    Sender.announce (hex32 3) Examples.publicKey1 (hex32 2) 8686346 0 = Ok ann
    /\ ScanPerformance.computedReceivingAddress Examples.receiver ann
       = Ok (KeyPair.addressOfPoint (Curve.mul 2 G))
    /\ KeyPair.addressOfPoint (Curve.mul 2 G)
       <> KeyPair.addressOfPoint (Curve.add G (Curve.mul 2 G)).
Proof.
  assert (K1 : 0 < 1 < n) by (vm_compute; split; reflexivity).
  assert (K2 : 0 < 2 < n) by (vm_compute; split; reflexivity).
  assert (K3 : 0 < 3 < n) by (vm_compute; split; reflexivity).
  destruct (KeyPairFacts.scan_of_announcement 3 1 1 2 8686346 0 K3 K1 K1 K2)
    as (ann & H1 & H2).
  change (Curve.mul 1 G) with G in H1, H2.
  exists ann. split; [exact H1|]. split; [exact H2|].
  intros H. vm_compute in H. discriminate H.
Qed.

(** C1, amended.  For every announcement generated for a receiver with
    viewing key [v] and spending public key [S = sG], with a random number
    [r] and an ephemeral key [e] (all valid scalars), the reducer's
    pipeline - recovering the ephemeral key from its x-coordinate,
    deriving the shared secret, decrypting the ciphertext to [r] by XOR,
    multiplying the spending public key by [r] and taking the address -
    returns the address of [r * S], the spending public key multiplied by
    the random number (not of [S + r * G]); the harness computes that
    address and compares nothing. *)
Theorem scan_derives_address_of_product (e v s r blk idx : Z) :
  0 < e < n -> 0 < v < n -> 0 < s < n -> 0 < r < n ->
  exists ann,
    Sender.announce (hex32 e) (KeyPair.uncompressed (Curve.mul v G)) (hex32 r) blk idx = Ok ann
    /\ ScanPerformance.computedReceivingAddress
         {| wallet_privateKey := hex32 v;
            wallet_publicKey := KeyPair.uncompressed (Curve.mul s G) |} ann
       = Ok (KeyPair.addressOfPoint (Curve.mul r (Curve.mul s G))).
Proof. exact (KeyPairFacts.scan_of_announcement e v s r blk idx). Qed.

Lemma scan_derives_address_of_product_witness :
  exists ann,
    Sender.announce (hex32 7) (KeyPair.uncompressed (Curve.mul 5 G)) (hex32 3) 8686346 0 = Ok ann
    /\ ScanPerformance.computedReceivingAddress
         {| wallet_privateKey := hex32 5;
            wallet_publicKey := KeyPair.uncompressed (Curve.mul 4 G) |} ann
       = Ok (KeyPair.addressOfPoint (Curve.mul 3 (Curve.mul 4 G))).
Proof.
  apply (scan_derives_address_of_product 7 5 4 3 8686346 0);
    (split; [reflexivity|vm_compute; reflexivity]).
Defined.

End PipelineClaim.

(** * The shared secret (lines 17-29) *)

Module SharedSecretFacts.
Import Secp256k1.
Local Open Scope string_scope.
Local Open Scope Z_scope.

(** C2.  ECDH symmetry: for every two valid private keys [a] and [c],
    with public keys [A = aG] and [C = cG], [getSharedSecret(a, C)] and
    [getSharedSecret(c, A)] both return, and return the same string. *)
Theorem ecdh_symmetry (a c : Z) :
  0 < a < n -> 0 < c < n ->
  ScanPerformance.getSharedSecret (hex32 a) (KeyPair.uncompressed (Curve.mul c G))
  = ScanPerformance.getSharedSecret (hex32 c) (KeyPair.uncompressed (Curve.mul a G))
  /\ is_ok (ScanPerformance.getSharedSecret (hex32 a) (KeyPair.uncompressed (Curve.mul c G)))
     = true.
Proof.
  intros Ha Hc.
  rewrite (PointFacts.getSharedSecret_value a (Curve.mul c G) Ha
             (PointFacts.mul_G_on_curve c) (PointFacts.mul_G_finite c Hc)).
  rewrite (PointFacts.getSharedSecret_value c (Curve.mul a G) Hc
             (PointFacts.mul_G_on_curve a) (PointFacts.mul_G_finite a Ha)).
  rewrite (PointFacts.secp_mul_exchange a c G) by (try lia; exact SecpFacts.G_on_curve).
  split; reflexivity.
Qed.

Lemma ecdh_symmetry_witness :
  ScanPerformance.getSharedSecret (hex32 2) (KeyPair.uncompressed (Curve.mul 3 G))
  = ScanPerformance.getSharedSecret (hex32 3) (KeyPair.uncompressed (Curve.mul 2 G))
  /\ is_ok (ScanPerformance.getSharedSecret (hex32 2) (KeyPair.uncompressed (Curve.mul 3 G)))
     = true.
Proof. apply (ecdh_symmetry 2 3); vm_compute; split; reflexivity. Defined.

(** C9.  The secret does not depend on the parity of the public key's
    y-coordinate: for every valid private key [a] and every public key
    [B] (a finite point of the curve), [getSharedSecret(a, B)] equals
    [getSharedSecret(a, B')] for [B'] the point with the same x and the
    negated y; both are the hash of the x-coordinate of [a * B] alone. *)
Theorem secret_parity_independent (a : Z) (B : point) :
  0 < a < n -> Curve.on_curve b B -> B <> Curve.Inf ->
  ScanPerformance.getSharedSecret (hex32 a) (KeyPair.uncompressed B)
  = ScanPerformance.getSharedSecret (hex32 a) (KeyPair.uncompressed (Curve.neg B))
  /\ ScanPerformance.getSharedSecret (hex32 a) (KeyPair.uncompressed B)
     = Ok (hashOfX (Curve.mul a B)).
Proof.
  intros Ha Hc Hf.
  rewrite (PointFacts.getSharedSecret_value a B Ha Hc Hf).
  rewrite (PointFacts.getSharedSecret_value a (Curve.neg B) Ha
             (PointFacts.secp_neg_on_curve B Hc) (PointFacts.neg_finite B Hf)).
  rewrite (PointFacts.secp_mul_neg a B Hc). unfold hashOfX. rewrite PointFacts.px_neg.
  split; reflexivity.
Qed.

Lemma secret_parity_independent_witness :
  ScanPerformance.getSharedSecret (hex32 5) (KeyPair.uncompressed G)
  = ScanPerformance.getSharedSecret (hex32 5) (KeyPair.uncompressed (Curve.neg G))
  /\ ScanPerformance.getSharedSecret (hex32 5) (KeyPair.uncompressed G)
     = Ok (hashOfX (Curve.mul 5 G)).
Proof.
  apply (secret_parity_independent 5 G).
  - vm_compute. split; reflexivity.
  - apply SecpFacts.on_curveb_iff. vm_compute. reflexivity.
  - discriminate.
Defined.

(** C3, as stated, fails on both counts: the secret for the private key
    1 and the public key [G] is the hash of the x-coordinate of the
    point, which differs from the hash of its two coordinates; and the
    same public key in compressed form is rejected. *)
Lemma secret_hashes_x_only :
  ScanPerformance.getSharedSecret (hex32 1) (KeyPair.uncompressed G) = Ok (hashOfX G)
  /\ hashOfX G <> hashOfXY G
  /\ ScanPerformance.getSharedSecret (hex32 1) ("0x" ++ Noble.toHex G true)
     = Throw (Error "Invalid public key").
Proof.
  split; [|split].
  - apply (PointFacts.getSharedSecret_value 1 G).
    + vm_compute. split; reflexivity.
    + exact SecpFacts.G_on_curve.
    + discriminate.
  - intros H. vm_compute in H. discriminate H.
  - vm_compute. reflexivity.
Qed.

(** C3, amended.  The shared secret is the SHA-256 hash of the 32-byte
    x-coordinate of the ECDH point alone (its compressed encoding with
    the parity prefix stripped), not of its uncompressed payload; and
    [getSharedSecret] takes the public key in uncompressed form only: for
    every valid private key, a public key argument that is not 132
    characters long (so every compressed key and every bare
    x-coordinate) is rejected with [Error('Invalid public key')].  Since
    only x is hashed, the two points with the same x-coordinate give the
    same secret, which is why a key rebuilt from an x-coordinate alone
    serves. *)
Theorem secret_is_hash_of_x (a : Z) (Q : point) (key : string) :
  0 < a < n -> Curve.on_curve b Q -> Q <> Curve.Inf ->
  ScanPerformance.getSharedSecret (hex32 a) (KeyPair.uncompressed Q)
  = Ok (hashOfX (Curve.mul a Q))
  /\ ScanPerformance.getSharedSecret (hex32 a) (KeyPair.uncompressed (Curve.neg Q))
     = Ok (hashOfX (Curve.mul a Q))
  /\ (String.length key <> 132%nat ->
      ScanPerformance.getSharedSecret (hex32 a) key = Throw (Error "Invalid public key")).
Proof.
  intros Ha Hc Hf. split; [|split].
  - exact (PointFacts.getSharedSecret_value a Q Ha Hc Hf).
  - rewrite (PointFacts.getSharedSecret_value a (Curve.neg Q) Ha
               (PointFacts.secp_neg_on_curve Q Hc) (PointFacts.neg_finite Q Hf)).
    rewrite (PointFacts.secp_mul_neg a Q Hc). unfold hashOfX.
    rewrite PointFacts.px_neg. reflexivity.
  - intros Hl. unfold ScanPerformance.getSharedSecret, ScanPerformance.getSharedSecret_logged.
    rewrite EthersFacts.length_hex32, EthersFacts.isHexString_hex32.
    cbn [Utils.privateKey Utils.publicKey Utils.lengths Nat.eqb negb orb].
    destruct (Nat.eqb_spec (String.length key) 132) as [E|_]; [contradiction|].
    reflexivity.
Qed.

Lemma secret_is_hash_of_x_witness :
  ScanPerformance.getSharedSecret (hex32 2) (KeyPair.uncompressed G)
  = Ok (hashOfX (Curve.mul 2 G))
  /\ ScanPerformance.getSharedSecret (hex32 2) (KeyPair.uncompressed (Curve.neg G))
     = Ok (hashOfX (Curve.mul 2 G))
  /\ (String.length ("0x" ++ Noble.toHex G true) <> 132%nat ->
      ScanPerformance.getSharedSecret (hex32 2) ("0x" ++ Noble.toHex G true)
      = Throw (Error "Invalid public key")).
Proof.
  apply (secret_is_hash_of_x 2 G).
  - vm_compute. split; reflexivity.
  - apply SecpFacts.on_curveb_iff. vm_compute. reflexivity.
  - discriminate.
Defined.

End SharedSecretFacts.

(** * [KeyPair.getUncompressedFromX] (line 108) *)

Module RecoveryClaim.
Import Secp256k1.
Local Open Scope string_scope.
Local Open Scope Z_scope.

(** C4, as stated, fails for the private key 6: the y-coordinate of its
    public key is odd, and the recovery returns the other point with the
    same x-coordinate, whose key is a different string. *)
Lemma recovery_of_odd_key :
  KeyPair.getUncompressedFromX (hex32 (Noble.px (Curve.mul 6 G)))
  = Ok (KeyPair.uncompressed (Curve.neg (Curve.mul 6 G)))
  /\ KeyPair.uncompressed (Curve.neg (Curve.mul 6 G)) <> KeyPair.uncompressed (Curve.mul 6 G).
Proof.
  assert (H6 : 0 < 6 < n) by (vm_compute; split; reflexivity).
  pose proof (PointFacts.mul_G_on_curve 6) as Hc.
  pose proof (PointFacts.mul_G_finite 6 H6) as Hf.
  assert (Hodd : Noble.hasEvenY (Curve.mul 6 G) = false) by (vm_compute; reflexivity).
  split.
  - rewrite (RecoveryFacts.recover_public_key _ Hc Hf), Hodd. reflexivity.
  - destruct (Curve.mul 6 G) as [|x y]; [congruence|].
    exact (RecoveryFacts.neg_key_differs x y Hc).
Qed.

(** C4, amended.  For every valid private key [k] with public key
    [Q = kG], the recovery from the x-coordinate of [Q] succeeds and
    returns, in uncompressed form, the point with that x-coordinate whose
    y-coordinate is even: [Q] itself when the y-coordinate of [Q] is
    even, and the negation of [Q] (a different key) when it is odd. *)
Theorem recovery_returns_even_point (k : Z) :
  0 < k < n ->
  KeyPair.getUncompressedFromX (hex32 (Noble.px (Curve.mul k G)))
  = Ok (KeyPair.uncompressed
          (if Noble.hasEvenY (Curve.mul k G) then Curve.mul k G else Curve.neg (Curve.mul k G)))
  /\ (Noble.hasEvenY (Curve.mul k G) = false ->
      KeyPair.uncompressed (Curve.neg (Curve.mul k G)) <> KeyPair.uncompressed (Curve.mul k G)).
Proof.
  intros Hk.
  pose proof (PointFacts.mul_G_on_curve k) as Hc.
  pose proof (PointFacts.mul_G_finite k Hk) as Hf.
  split.
  - exact (RecoveryFacts.recover_public_key _ Hc Hf).
  - intros _. destruct (Curve.mul k G) as [|x y]; [congruence|].
    exact (RecoveryFacts.neg_key_differs x y Hc).
Qed.

Lemma recovery_returns_even_point_witness :
  KeyPair.getUncompressedFromX (hex32 (Noble.px (Curve.mul 2 G)))
  = Ok (KeyPair.uncompressed
          (if Noble.hasEvenY (Curve.mul 2 G) then Curve.mul 2 G else Curve.neg (Curve.mul 2 G)))
  /\ (Noble.hasEvenY (Curve.mul 2 G) = false ->
      KeyPair.uncompressed (Curve.neg (Curve.mul 2 G)) <> KeyPair.uncompressed (Curve.mul 2 G)).
Proof. apply (recovery_returns_even_point 2). vm_compute. split; reflexivity. Defined.

End RecoveryClaim.

(** * Decryption of the random number (lines 125-126) *)

Module DecryptFacts.
Local Open Scope string_scope.
Local Open Scope Z_scope.

(** C5.  XOR round trip over 32 bytes: for every 32-byte value [r] and
    every 32-byte shared secret [s], encrypting [r] by XOR with [s]
    succeeds, and decrypting the resulting ciphertext with the same
    secret, as the reducer does ([BigNumber.from(ciphertext).xor(secret)]
    padded to 32 bytes), returns [r] exactly. *)
Theorem xor_round_trip (r s : Z) :
  0 <= r < 2 ^ 256 -> 0 <= s < 2 ^ 256 ->
  exists c,
    Sender.encrypt (hex32 r) (hex32 s) = Ok c
    /\ forall ann, ciphertext ann = c ->
                   ScanPerformance.decryptStage ann (hex32 s) = Ok (hex32 r).
Proof.
  intros Hr Hs. exists (hex32 (Z.lxor r s)). split.
  - apply EthersFacts.encrypt_value; auto using EthersFacts.BigNumber_from_hex32.
  - intros ann Hc.
    replace (hex32 r) with (hex32 (Z.lxor (Z.lxor r s) s))
      by (rewrite EthersFacts.lxor_cancel; reflexivity).
    apply EthersFacts.decryptStage_value; auto using EthersFacts.BigNumber_from_hex32.
    + rewrite Hc. apply EthersFacts.BigNumber_from_hex32, EthersFacts.lxor_bound; assumption.
    + apply EthersFacts.lxor_bound; assumption.
Qed.

Lemma xor_round_trip_witness :
  exists c,
    Sender.encrypt (hex32 0x1234) (hex32 0xff00ff) = Ok c
    /\ forall ann, ciphertext ann = c ->
                   ScanPerformance.decryptStage ann (hex32 0xff00ff) = Ok (hex32 0x1234).
Proof. apply (xor_round_trip 0x1234 0xff00ff); lia. Defined.

End DecryptFacts.

(** * The reduction over the announcements (lines 103-143) *)

Module ReduceFacts.
Import ScanPerformance.
Local Open Scope string_scope.
Local Open Scope Z_scope.

(** Whether the reducer returns depends on the announcement and the
    receiver only, not on the clock or the totals. *)
Lemma reducer_throws (now : nat -> Z) (receiver : Wallet) (st : nat * list Z)
      (ann : Announcement) (e : error) :
  computedReceivingAddress receiver ann = Throw e ->
  reducer now receiver st ann = Throw e.
Proof.
  unfold computedReceivingAddress, reducer. destruct st as [k totalTime].
  destruct (recoverStage ann) as [pub|e1]; cbn [bind]; [|congruence].
  destruct (secretStage receiver ann pub) as [sec|e2]; cbn [bind]; [|congruence].
  destruct (tagStage sec) as [tag|e3]; cbn [bind]; [|congruence].
  destruct (decryptStage ann sec) as [rnd|e4]; cbn [bind]; [|congruence].
  destruct (addressStage receiver rnd) as [addr|e5]; cbn [bind]; congruence.
Qed.

Lemma length_add_at (i : nat) (d : Z) (l : list Z) : length (add_at i d l) = length l.
Proof.
  revert i. induction l as [|x l IH]; intros [|i]; simpl; auto.
Qed.

Lemma reducer_returns (now : nat -> Z) (receiver : Wallet) (st : nat * list Z)
      (ann : Announcement) (a : string) :
  computedReceivingAddress receiver ann = Ok a ->
  exists st', reducer now receiver st ann = Ok st'
              /\ fst st' = (fst st + 6)%nat /\ length (snd st') = length (snd st).
Proof.
  unfold computedReceivingAddress, reducer. destruct st as [k totalTime].
  destruct (recoverStage ann) as [pub|e1]; cbn [bind]; [|congruence].
  destruct (secretStage receiver ann pub) as [sec|e2]; cbn [bind]; [|congruence].
  destruct (tagStage sec) as [tag|e3]; cbn [bind]; [|congruence].
  destruct (decryptStage ann sec) as [rnd|e4]; cbn [bind]; [|congruence].
  destruct (addressStage receiver rnd) as [addr|e5]; cbn [bind]; [|congruence].
  intros _. eexists. split; [reflexivity|]. cbn [fst snd].
  split; [reflexivity|]. rewrite !length_add_at. reflexivity.
Qed.

Lemma reduce_returns (now : nat -> Z) (receiver : Wallet) (anns : list Announcement) :
  Forall (returns receiver) anns ->
  forall st, exists st', reduce now receiver st anns = Ok st'
                         /\ length (snd st') = length (snd st).
Proof.
  induction 1 as [|ann anns Hann _ IH]; intros st.
  - exists st. split; reflexivity.
  - unfold returns in Hann.
    destruct (computedReceivingAddress receiver ann) as [a|e] eqn:E; [|discriminate].
    destruct (reducer_returns now receiver st ann a E) as (st1 & H1 & _ & Hl).
    destruct (IH st1) as (st2 & H2 & Hl2).
    exists st2. cbn [reduce]. rewrite H1. cbn [bind]. split; [exact H2|congruence].
Qed.

Lemma reduce_throws (now : nat -> Z) (receiver : Wallet)
      (pre post : list Announcement) (ann : Announcement) (e : error) :
  Forall (returns receiver) pre ->
  computedReceivingAddress receiver ann = Throw e ->
  forall st, reduce now receiver st (pre ++ ann :: post) = Throw e.
Proof.
  intros Hpre Hann. induction Hpre as [|a pre Ha _ IH]; intros st.
  - cbn [app reduce]. rewrite (reducer_throws now receiver st ann e Hann). reflexivity.
  - unfold returns in Ha.
    destruct (computedReceivingAddress receiver a) as [v|e'] eqn:E; [|discriminate].
    destruct (reducer_returns now receiver st a v E) as (st1 & H1 & _).
    cbn [app reduce]. rewrite H1. cbn [bind]. apply IH.
Qed.

(** With a key pair the constructor rejects, no announcement gets
    through the reducer. *)
Lemma invalid_key_pair_throws (receiver : Wallet) (ann : Announcement) (e : error) :
  KeyPair.new (wallet_privateKey receiver) = Throw e ->
  exists e', computedReceivingAddress receiver ann = Throw e'.
Proof.
  intros Hk. unfold computedReceivingAddress.
  destruct (recoverStage ann) as [pub|e1]; cbn [bind]; [|eauto].
  unfold secretStage. rewrite Hk. cbn [bind]. eauto.
Qed.

(** C6, as stated, fails: a batch of one announcement whose point
    recovery fails does not yield a non-match result; the reduction
    throws the recovery's exception. *)
Lemma scan_not_contained :
  scan (fun _ => 0) Examples.receiver [Examples.unrecoverable] = Throw PointRecoveryFailed.
Proof. reflexivity. Qed.

(** C6, amended.  The reducer contains no failure: for every batch, the
    exception of the first announcement on which any step throws (point
    recovery, key-pair construction, the guards, point validation, the
    shared secret, the decryption, the address) ends the reduction with
    that exception; the reduction returns its seven totals when every
    announcement gets through all steps; and with a key pair that the
    constructor rejects, a batch of one announcement or more always
    throws. *)
Theorem scan_fail_stop (now : nat -> Z) (receiver : Wallet) :
  (forall pre ann post e,
      Forall (returns receiver) pre ->
      computedReceivingAddress receiver ann = Throw e ->
      scan now receiver (pre ++ ann :: post) = Throw e)
  /\ (forall anns,
         Forall (returns receiver) anns ->
         exists totalTime, scan now receiver anns = Ok totalTime /\ length totalTime = 7%nat)
  /\ (forall e ann rest,
         KeyPair.new (wallet_privateKey receiver) = Throw e ->
         exists e', scan now receiver (ann :: rest) = Throw e').
Proof.
  repeat split.
  - intros pre ann post e Hpre Hann. unfold scan.
    rewrite (reduce_throws now receiver pre post ann e Hpre Hann). reflexivity.
  - intros anns Hall. unfold scan.
    destruct (reduce_returns now receiver anns Hall (O, [0; 0; 0; 0; 0; 0; 0]))
      as (st' & H & Hl).
    rewrite H. cbn [bind]. eauto.
  - intros e ann rest Hk.
    destruct (invalid_key_pair_throws receiver ann e Hk) as [e' He'].
    exists e'. unfold scan.
    rewrite (reduce_throws now receiver [] rest ann e' (Forall_nil _) He'). reflexivity.
Qed.

Lemma scan_fail_stop_witness :
  scan (fun _ => 0) Examples.receiver ([] ++ Examples.unrecoverable :: [])
  = Throw PointRecoveryFailed
  /\ exists totalTime,
      scan (fun _ => 0) Examples.receiver [] = Ok totalTime /\ length totalTime = 7%nat.
Proof.
  destruct (scan_fail_stop (fun _ => 0) Examples.receiver) as (H1 & H2 & _). split.
  - apply H1; [constructor|reflexivity].
  - apply H2. constructor.
Defined.

End ReduceFacts.

(** * The checks of [getSharedSecret] (lines 17-21) *)

Module ValidationFacts.
Import ScanPerformance.
Local Open Scope string_scope.
Local Open Scope Z_scope.

(** The two tests of lines 18 and 19. *)
Lemma getSharedSecret_checked (privateKey publicKey : string) :
  negb (String.length privateKey =? Utils.privateKey Utils.lengths)%nat
    || negb (Ethers.isHexString privateKey) = false ->
  negb (String.length publicKey =? Utils.publicKey Utils.lengths)%nat
    || negb (Ethers.isHexString publicKey) = false ->
  getSharedSecret_logged privateKey publicKey =
  lbind (lcall CallAssertValidPoint (Utils.assertValidPoint publicKey)) (fun _ =>
  lbind (lcall CallAssertValidPrivateKey (Utils.assertValidPrivateKey privateKey)) (fun _ =>
  lbind (lcall CallNobleGetSharedSecret
           (Noble.getSharedSecret (Hex.slice 2 privateKey) (Hex.slice 2 publicKey) true))
        (fun sharedSecret =>
           lcall CallSha256
                 (Ethers.sha256 ("0x" ++ Hex.slice 2 (Noble.bytesToHex sharedSecret)))))).
Proof.
  intros H1 H2. unfold getSharedSecret_logged. rewrite H1, H2. reflexivity.
Qed.

Ltac settle :=
  repeat split; intros; unfold lthrow, lcall, lbind in *;
  cbn [fst snd app In] in *;
  try reflexivity; try congruence; try contradiction; try (intuition discriminate).

(** C7, as stated, fails on two counts.  A key of the right length and
    format that is not on the curve is not rejected with the error of the
    public-key test, but by [assertValidPoint], with that validator's own
    error; and when both keys are malformed, the public key is not
    rejected as such: the error is the private key's. *)
Lemma curve_membership_error :
  getSharedSecret_logged (hex32 1) Examples.offCurveKey
  = ([CallAssertValidPoint], Throw PointNotOnCurve)
  /\ getSharedSecret_logged "0x01" "0x02" = ([], Throw (Error "Invalid private key")).
Proof. split; vm_compute; reflexivity. Qed.

(** C7, amended.  For every pair of inputs, [getSharedSecret] rejects a
    private key of the wrong length or format with [Error('Invalid
    private key')], and otherwise a public key of the wrong length or
    format with [Error('Invalid public key')], in both cases before any
    call at all.  Keys that pass these tests are handed to
    [assertValidPoint] and then to [assertValidPrivateKey], whose own
    exceptions (point not on the curve, scalar out of range) end the
    function; the elliptic-curve library is called only when all four
    checks have passed. *)
Theorem getSharedSecret_fail_fast (privateKey publicKey : string) :
  let bad_private :=
    negb (String.length privateKey =? Utils.privateKey Utils.lengths)%nat
    || negb (Ethers.isHexString privateKey) in
  let bad_public :=
    negb (String.length publicKey =? Utils.publicKey Utils.lengths)%nat
    || negb (Ethers.isHexString publicKey) in
  (bad_private = true ->
   getSharedSecret_logged privateKey publicKey = ([], Throw (Error "Invalid private key")))
  /\ (bad_private = false -> bad_public = true ->
      getSharedSecret_logged privateKey publicKey = ([], Throw (Error "Invalid public key")))
  /\ (bad_private = false -> bad_public = false ->
      forall e, Utils.assertValidPoint publicKey = Throw e ->
      getSharedSecret_logged privateKey publicKey = ([CallAssertValidPoint], Throw e))
  /\ (bad_private = false -> bad_public = false ->
      Utils.assertValidPoint publicKey = Ok tt ->
      forall e, Utils.assertValidPrivateKey privateKey = Throw e ->
      getSharedSecret_logged privateKey publicKey
      = ([CallAssertValidPoint; CallAssertValidPrivateKey], Throw e))
  /\ (In CallNobleGetSharedSecret (fst (getSharedSecret_logged privateKey publicKey)) ->
      bad_private = false /\ bad_public = false
      /\ Utils.assertValidPoint publicKey = Ok tt
      /\ Utils.assertValidPrivateKey privateKey = Ok tt).
Proof.
  cbv zeta. unfold getSharedSecret_logged.
  destruct (negb (String.length privateKey =? Utils.privateKey Utils.lengths)%nat
            || negb (Ethers.isHexString privateKey)); [settle|].
  destruct (negb (String.length publicKey =? Utils.publicKey Utils.lengths)%nat
            || negb (Ethers.isHexString publicKey)); [settle|].
  destruct (Utils.assertValidPoint publicKey) as [[]|e1]; [|settle].
  destruct (Utils.assertValidPrivateKey privateKey) as [[]|e2]; settle.
Qed.

End ValidationFacts.

(** * The announcement source (lines 60-92) *)

Module SourceFacts.
Import AnnouncementSource.
Local Open Scope Z_scope.




(** ** Putting events in chain order *)











(** ** Pages *)



(** ** Sub-ranges *)










End SourceFacts.

(** * The ConnectWallet component: the connection guard *)

Module ConnectWalletFacts.
Import ConnectWallet.
Local Open Scope string_scope.

Lemma targetOf_truthy (props_to : option string) :
  ScanPerformance.truthy (targetOf props_to) = true.
Proof.
  destruct props_to as [t|]; simpl; [|reflexivity].
  destruct (ScanPerformance.truthy t) eqn:E; [exact E|reflexivity].
Qed.

Lemma handler_log (to : string) (userAddress : option string)
      (connectWallet : result unit) (push : string -> result unit) :
  let log := fst (connectWalletWithRedirect to userAddress connectWallet push) in
  if ScanPerformance.truthy_opt userAddress
  then log = (if ScanPerformance.truthy to then [RouterPush to] else [])
  else exists rest, log = ConnectWalletCall :: rest.
Proof.
  unfold connectWalletWithRedirect.
  destruct (ScanPerformance.truthy_opt userAddress), (ScanPerformance.truthy to); simpl;
    try reflexivity.
  - destruct connectWallet as [[]|e]; simpl; eauto.
  - destruct connectWallet as [[]|e]; simpl; eauto.
Qed.

(** C10.  For every invocation of [connectWalletWithRedirect],
    [connectWallet] is called if and only if [userAddress] is not set
    (not truthy); when it is set the handler does nothing but at most one
    router navigation to the target page; and through [setup], whose
    target [props.to || 'home'] is never empty, a connected user is always
    redirected: the handler's only action is the navigation to the
    target. *)
Theorem connect_wallet_guard (to : string) (props_to userAddress : option string)
        (connectWallet : result unit) (push : string -> result unit) :
  (In ConnectWalletCall (fst (connectWalletWithRedirect to userAddress connectWallet push))
   <-> ScanPerformance.truthy_opt userAddress = false)
  /\ (ScanPerformance.truthy_opt userAddress = true ->
      fst (connectWalletWithRedirect to userAddress connectWallet push) = [RouterPush to]
      \/ fst (connectWalletWithRedirect to userAddress connectWallet push) = [])
  /\ ScanPerformance.truthy (targetOf props_to) = true
  /\ (ScanPerformance.truthy_opt userAddress = true ->
      setup props_to userAddress connectWallet push
      = ([RouterPush (targetOf props_to)], push (targetOf props_to))).
Proof.
  pose proof (handler_log to userAddress connectWallet push) as H. simpl in H.
  repeat split.
  - intros Hin. destruct (ScanPerformance.truthy_opt userAddress); [|reflexivity].
    rewrite H in Hin. destruct (ScanPerformance.truthy to); simpl in Hin.
    + destruct Hin as [Hin|[]]. discriminate.
    + destruct Hin.
  - intros Hu. rewrite Hu in H. destruct H as [rest ->]. left. reflexivity.
  - intros Hu. rewrite Hu in H. rewrite H.
    destruct (ScanPerformance.truthy to); auto.
  - apply targetOf_truthy.
  - intros Hu. unfold setup, connectWalletWithRedirect.
    rewrite Hu, targetOf_truthy. reflexivity.
Qed.

End ConnectWalletFacts.

(** * The timing totals (lines 133-139) *)

Module TimingFacts.
Import ScanPerformance.
Local Open Scope Z_scope.








End TimingFacts.

(** * The guards of the reducer (lines 112-117) and the calls of
    [getSharedSecret] *)

Module GuardFacts.
Import Secp256k1 ScanPerformance.
Local Open Scope string_scope.
Local Open Scope Z_scope.

(** X4.  An announcement without a ciphertext is rejected by the first
    guard, whatever the ephemeral key, once the viewing key pair has been
    built. *)
Theorem empty_ciphertext_rejected (receiver : Wallet) (ann : Announcement)
        (ephemeralPublicKey : string) (v : Z) :
  wallet_privateKey receiver = hex32 v -> 0 < v < n ->
  ciphertext ann = "" ->
  secretStage receiver ann ephemeralPublicKey
  = Throw (Error "Input must be of type EncryptedPayload to decrypt").
Proof.
  intros Hw Hv Hc. unfold secretStage.
  rewrite Hw, (KeyPairFacts.new_private v Hv), Hc. cbn [bind truthy].
  rewrite Bool.andb_false_r. reflexivity.
Qed.

Lemma empty_ciphertext_rejected_witness :
  secretStage Examples.receiver
              {| pkx := hex32 1; ciphertext := ""; blockNumber := 0; logIndex := 0 |}
              Examples.publicKey1
  = Throw (Error "Input must be of type EncryptedPayload to decrypt").
Proof.
  apply (empty_ciphertext_rejected _ _ _ 1).
  - reflexivity.
  - vm_compute. split; reflexivity.
  - reflexivity.
Defined.

(** X5.  A receiver whose [privateKey] is in fact a public key gets a
    key pair without a private key and is stopped by the second guard. *)
Theorem missing_private_key_rejected (receiver : Wallet) (ann : Announcement)
        (ephemeralPublicKey : string) (Q : point) :
  wallet_privateKey receiver = KeyPair.uncompressed Q ->
  Curve.on_curve b Q -> Q <> Curve.Inf ->
  truthy ephemeralPublicKey = true -> truthy (ciphertext ann) = true ->
  secretStage receiver ann ephemeralPublicKey
  = Throw (Error "KeyPair has no associated private key to decrypt with").
Proof.
  intros Hw Hc Hf H1 H2. unfold secretStage.
  rewrite Hw, (KeyPairFacts.new_public Q Hc Hf), H1, H2. reflexivity.
Qed.

Lemma missing_private_key_rejected_witness :
  secretStage {| wallet_privateKey := Examples.publicKey1;
                 wallet_publicKey := Examples.publicKey1 |}
              (Examples.event 10 0) Examples.publicKey1
  = Throw (Error "KeyPair has no associated private key to decrypt with").
Proof.
  apply (missing_private_key_rejected _ _ _ G).
  - reflexivity.
  - apply SecpFacts.on_curveb_iff. vm_compute. reflexivity.
  - discriminate.
  - reflexivity.
  - reflexivity.
Defined.



End GuardFacts.

(** * The ConnectWallet handler: failures and navigation *)

Module HandlerFacts.
Import ConnectWallet.
Local Open Scope string_scope.

(** X7.  When the connection fails, the handler fails with the same
    exception and does not navigate. *)
Theorem failed_connection_stops (to : string) (userAddress : option string)
        (e : error) (push : string -> result unit) :
  ScanPerformance.truthy_opt userAddress = false ->
  connectWalletWithRedirect to userAddress (Throw e) push = ([ConnectWalletCall], Throw e).
Proof.
  intros H. unfold connectWalletWithRedirect. rewrite H. reflexivity.
Qed.

Lemma failed_connection_stops_witness :
  connectWalletWithRedirect "home" None (Throw (Error "User rejected")) (fun _ => Ok tt)
  = ([ConnectWalletCall], Throw (Error "User rejected")).
Proof. apply failed_connection_stops. reflexivity. Defined.

(** X8.  In every run the handler navigates at most once, to the page
    [to] and to no other; with an empty [to] it never navigates. *)
Theorem navigates_at_most_once (to : string) (userAddress : option string)
        (connectWallet : result unit) (push : string -> result unit) :
  let log := fst (connectWalletWithRedirect to userAddress connectWallet push) in
  (pushes log = [] \/ pushes log = [to])
  /\ (ScanPerformance.truthy to = false -> pushes log = []).
Proof.
  unfold connectWalletWithRedirect.
  destruct (ScanPerformance.truthy_opt userAddress), (ScanPerformance.truthy to),
    connectWallet as [[]|e]; cbn; split; auto; intros; discriminate.
Qed.

End HandlerFacts.
